(** * Verification of dxf-tools: label extraction and parts-list comparison

    Shallow embedding of [utils/compare_partslist.py] and
    [utils/extract_labels.py].  Python [str] values are lists of Unicode code
    points ([pystr]); Python [bytes] are lists of [Byte.byte].  The Unicode
    tables that CPython consults ([str.upper], [str.isdigit], [str.islower],
    [str.isalpha]) are kept abstract as section variables, so every theorem
    below holds for any such table. *)


From Stdlib Require Import Strings.String Strings.Ascii.
From Stdlib Require Import List Bool Arith Lia NArith ZArith Strings.Byte.
From Stdlib Require Import Sorting.Permutation Sorting.Sorted Setoid.
Import ListNotations.

(** ** Python strings *)

Definition pystr := list N.

(** Characters for which CPython's [str.isspace] holds; [str.strip()] with no
    argument removes exactly these from both ends. *)
Definition py_isspace (c : N) : bool :=
  ((9 <=? c) && (c <=? 13))%N || ((28 <=? c) && (c <=? 32))%N
  || (c =? 133)%N || (c =? 160)%N || (c =? 5760)%N
  || ((8192 <=? c) && (c <=? 8202))%N
  || (c =? 8232)%N || (c =? 8233)%N || (c =? 8239)%N
  || (c =? 8287)%N || (c =? 12288)%N.

Fixpoint lstrip (s : pystr) : pystr :=
  match s with
  | [] => []
  | c :: r => if py_isspace c then lstrip r else s
  end.

(** [s.strip()] *)
Definition strip (s : pystr) : pystr := rev (lstrip (rev (lstrip s))).

(** Python string equality and ordering (code point by code point). *)
Fixpoint str_eqb (a b : pystr) : bool :=
  match a, b with
  | [], [] => true
  | x :: a', y :: b' => (x =? y)%N && str_eqb a' b'
  | _, _ => false
  end.

Fixpoint str_ltb (a b : pystr) : bool :=
  match a, b with
  | [], [] => false
  | [], _ :: _ => true
  | _ :: _, [] => false
  | x :: a', y :: b' =>
      if (x <? y)%N then true else if (y <? x)%N then false else str_ltb a' b'
  end.

Definition str_leb (a b : pystr) : bool := str_ltb a b || str_eqb a b.

(** Iterating over [io.StringIO(content)]: [StringIO] uses [newline='\n'],
    so lines end at ["\n"] only and keep it; a final segment without a
    terminator is a line when it is non-empty. *)
Fixpoint lines_acc (cur : pystr) (s : pystr) : list pystr :=
  match s with
  | [] => match cur with [] => [] | _ => [rev cur] end
  | c :: r =>
      if (c =? 10)%N then rev (c :: cur) :: lines_acc [] r
      else lines_acc (c :: cur) r
  end.

Definition stringio_lines (s : pystr) : list pystr := lines_acc [] s.

(** A [str] literal from an ASCII Rocq string. *)
Definition s (x : String.string) : pystr :=
  map Ascii.N_of_ascii (String.list_ascii_of_string x).

(** ** Strict UTF-8 decoding, [bytes.decode('utf-8')] *)

(** [UnicodeDecodeError] with its attributes [encoding], [object], [start],
    [end] and [reason]. *)
Inductive py_exc :=
| UnicodeDecodeError (encoding : string) (object : list N) (start end_ : nat)
    (reason : string).

Definition is_cont (b : N) : bool := (128 <=? b)%N && (b <=? 191)%N.

Definition in_range (lo hi b : N) : bool := (lo <=? b)%N && (b <=? hi)%N.

(** [decode_from pos bs] decodes [bs], whose first byte is at offset [pos]
    of the input.  A failure is [(start, end, reason)] as CPython's UTF-8
    decoder reports it: an invalid start byte spans one byte, an invalid
    continuation byte spans the valid bytes before it, and a sequence cut
    short by the end of the input spans up to that end. *)
Fixpoint decode_from (fuel pos : nat) (bs : list N) : pystr + (nat * nat * string) :=
  match fuel with
  | O => inl []
  | S f =>
    match bs with
    | [] => inl []
    | b0 :: r0 =>
      let k := fun (cp : N) (n : nat) (rest : list N) =>
        match decode_from f (pos + n) rest with
        | inl s => inl (cp :: s)
        | inr e => inr e
        end in
      let end_of_data := inr (pos, pos + length bs, "unexpected end of data"%string) in
      let invalid_start := inr (pos, S pos, "invalid start byte"%string) in
      let invalid_cont := fun n : nat => inr (pos, pos + n, "invalid continuation byte"%string) in
      if (b0 <? 128)%N then k b0 1 r0
      else if in_range 194 223 b0 then
        match r0 with
        | [] => end_of_data
        | b1 :: r1 =>
            if is_cont b1 then k ((b0 - 192) * 64 + (b1 - 128))%N 2 r1
            else invalid_cont 1
        end
      else if in_range 224 239 b0 then
        let lo1 := if (b0 =? 224)%N then 160%N else 128%N in
        let hi1 := if (b0 =? 237)%N then 159%N else 191%N in
        match r0 with
        | [] => end_of_data
        | b1 :: r1 =>
            if negb (in_range lo1 hi1 b1) then invalid_cont 1 else
            match r1 with
            | [] => end_of_data
            | b2 :: r2 =>
                if is_cont b2 then
                  k ((b0 - 224) * 4096 + (b1 - 128) * 64 + (b2 - 128))%N 3 r2
                else invalid_cont 2
            end
        end
      else if in_range 240 244 b0 then
        let lo1 := if (b0 =? 240)%N then 144%N else 128%N in
        let hi1 := if (b0 =? 244)%N then 143%N else 191%N in
        match r0 with
        | [] => end_of_data
        | b1 :: r1 =>
            if negb (in_range lo1 hi1 b1) then invalid_cont 1 else
            match r1 with
            | [] => end_of_data
            | b2 :: r2 =>
                if negb (is_cont b2) then invalid_cont 2 else
                match r2 with
                | [] => end_of_data
                | b3 :: r3 =>
                    if is_cont b3 then
                      k ((b0 - 240) * 262144 + (b1 - 128) * 4096
                         + (b2 - 128) * 64 + (b3 - 128))%N 4 r3
                    else invalid_cont 3
                end
            end
        end
      else invalid_start
    end
  end.

Definition decode_utf8 (bs : list Byte.byte) : pystr + py_exc :=
  let obj := map Byte.to_N bs in
  match decode_from (length bs) 0 obj with
  | inl t => inl t
  | inr (start, end_, reason) => inr (UnicodeDecodeError "utf-8"%string obj start end_ reason)
  end.

(** [%d] and [%02x] formatting. *)
Fixpoint decimal_acc (fuel : nat) (n : N) (acc : pystr) : pystr :=
  match fuel with
  | O => acc
  | S f =>
      let acc' := (48 + n mod 10)%N :: acc in
      if (n <? 10)%N then acc' else decimal_acc f (n / 10)%N acc'
  end.

Definition decimal (n : nat) : pystr := decimal_acc (S n) (N.of_nat n) [].

Definition hex_digit (d : N) : N := if (d <? 10)%N then (48 + d)%N else (87 + d)%N.

Definition hex2 (b : N) : pystr := [hex_digit (b / 16)%N; hex_digit (b mod 16)%N].

(** [str(e)] for a [UnicodeDecodeError] ([UnicodeDecodeError_str] in
    CPython's [Objects/exceptions.c]). *)
Definition exc_str (e : py_exc) : pystr :=
  match e with
  | UnicodeDecodeError enc obj start end_ reason =>
      if (start <? length obj) && (end_ =? S start) then
        s "'" ++ s enc ++ s "' codec can't decode byte 0x" ++ hex2 (nth start obj 0%N)
          ++ s " in position " ++ decimal start ++ s ": " ++ s reason
      else
        s "'" ++ s enc ++ s "' codec can't decode bytes in position " ++ decimal start
          ++ s "-" ++ decimal (end_ - 1) ++ s ": " ++ s reason
  end.

(** The contents handed to [read_labels_from_content]: [str] or [bytes]. *)
Inductive content :=
| PyStr (s : pystr)
| PyBytes (b : list Byte.byte).

(** ** [collections.Counter] over labels

    A [Counter] is a dict: keys in first-insertion order with their counts,
    kept here as an association list without duplicate keys. *)

Definition counter := list (pystr * nat).

(** [self[elem] = self.get(elem, 0) + 1] *)
Fixpoint counter_add (c : counter) (x : pystr) : counter :=
  match c with
  | [] => [(x, 1)]
  | (k, n) :: r => if str_eqb k x then (k, S n) :: r else (k, n) :: counter_add r x
  end.

(** [Counter(iterable)] *)
Definition Counter (l : list pystr) : counter := fold_left counter_add l [].

(** [c[x]]: a missing key counts 0. *)
Fixpoint counter_get (c : counter) (x : pystr) : nat :=
  match c with
  | [] => 0
  | (k, n) :: r => if str_eqb k x then n else counter_get r x
  end.

(** [c1 - c2] ([Counter.__sub__]): the keys of [c1], in order, whose count
    minus the count in [c2] is positive.  Its second loop only adds keys of
    [c2] with a negative count, and a [Counter] built from a list has none. *)
Fixpoint counter_sub (c1 c2 : counter) : counter :=
  match c1 with
  | [] => []
  | (k, n) :: r =>
      if 0 <? n - counter_get c2 k then (k, n - counter_get c2 k) :: counter_sub r c2
      else counter_sub r c2
  end.

(** [list(c.elements())]: each key repeated as often as its count. *)
Definition counter_elements (c : counter) : list pystr :=
  flat_map (fun kn => repeat (fst kn) (snd kn)) c.

Definition counter_keys (c : counter) : list pystr := map fst c.

Definition str_mem (x : pystr) (l : list pystr) : bool := existsb (str_eqb x) l.

(** [len(set(c1.keys()) & set(c2.keys()))] *)
Definition common_keys_count (c1 c2 : counter) : nat :=
  length (filter (fun k => str_mem k (counter_keys c2)) (counter_keys c1)).

(** [sorted(l)]: insertion sort for Python's string order.  Equal strings are
    identical, so every stable sort gives this same list. *)
Fixpoint insert_by (le : pystr -> pystr -> bool) (x : pystr) (l : list pystr)
  : list pystr :=
  match l with
  | [] => [x]
  | y :: r => if le x y then x :: y :: r else y :: insert_by le x r
  end.

Fixpoint sort_by (le : pystr -> pystr -> bool) (l : list pystr) : list pystr :=
  match l with
  | [] => []
  | x :: r => insert_by le x (sort_by le r)
  end.

Definition sorted_str (l : list pystr) : list pystr := sort_by str_leb l.

Section PartsList.

(** CPython's [str.upper] is the per-character full case mapping: each code
    point maps to one or more code points. *)
Variable upper_char : N -> list N.

Definition upper (s : pystr) : pystr := flat_map upper_char s.

(** [normalize_label(label)] for a [str] argument. *)
Definition normalize_label (label : pystr) : pystr := upper (strip label).

(** [read_labels_from_content(content)]: an exception escapes as [inr]. *)
Definition read_labels_from_content (c : content) : list pystr + py_exc :=
  let text := match c with PyStr s => inl s | PyBytes b => decode_utf8 b end in
  match text with
  | inr e => inr e
  | inl s =>
      inl (fold_left
             (fun labels line =>
                let label := strip line in
                match label with
                | [] => labels
                | _ => labels ++ [normalize_label label]
                end)
             (stringio_lines s) [])
  end.

Record cmp_info := mk_info {
  dxf_total : nat;
  dxf_unique : nat;
  circuit_total : nat;
  circuit_unique : nat;
  common_count : nat;
  missing_in_dxf : nat;
  missing_in_circuit : nat;
  error : option pystr  (* [str(e)] *)
}.

Definition info0 : cmp_info := mk_info 0 0 0 0 0 0 0 None.

(** The first component of the returned pair.  [MdEmpty] is [""];
    [MdReport a b] is the markdown text of lines 90-119, built from the
    counts of [info] and the lines ["- " + x] for the sorted lists [a]
    (labels missing in the drawing) and [b] (labels missing in the circuit
    list). *)
Inductive md_output :=
| MdEmpty
| MdReport (missing_in_dxf_sorted missing_in_circuit_sorted : list pystr).

(** [compare_parts_list(dxf_labels_content, circuit_symbols_content)] *)
Definition compare_parts_list (dxf_labels_content circuit_symbols_content : content)
  : md_output * cmp_info :=
  match read_labels_from_content dxf_labels_content with
  | inr e => (MdEmpty, mk_info 0 0 0 0 0 0 0 (Some (exc_str e)))
  | inl dxf_labels =>
  match read_labels_from_content circuit_symbols_content with
  | inr e => (MdEmpty, mk_info 0 0 0 0 0 0 0 (Some (exc_str e)))
  | inl circuit_symbols =>
      let dxf_counter := Counter dxf_labels in
      let circuit_counter := Counter circuit_symbols in
      let missing_in_dxf_expanded :=
        counter_elements (counter_sub circuit_counter dxf_counter) in
      let missing_in_circuit_expanded :=
        counter_elements (counter_sub dxf_counter circuit_counter) in
      (MdReport (sorted_str missing_in_dxf_expanded)
                (sorted_str missing_in_circuit_expanded),
       mk_info (length dxf_labels) (length dxf_counter)
               (length circuit_symbols) (length circuit_counter)
               (common_keys_count dxf_counter circuit_counter)
               (length missing_in_dxf_expanded)
               (length missing_in_circuit_expanded) None)
  end
  end.

End PartsList.

(** ASCII case mapping, which agrees with [str.upper] on ASCII text. *)
Definition ascii_upper (c : N) : list N :=
  if (97 <=? c)%N && (c <=? 122)%N then [(c - 32)%N] else [c].

(** ** [utils/extract_labels.py] *)

Definition ascii_letter (c : N) : bool :=
  ((65 <=? c) && (c <=? 90))%N || ((97 <=? c) && (c <=? 122))%N.

Definition ascii_digit (c : N) : bool := (48 <=? c)%N && (c <=? 57)%N.

(** The longest prefix of [l] whose characters satisfy [p], and the rest. *)
Fixpoint span (p : N -> bool) (l : pystr) : pystr * pystr :=
  match l with
  | [] => ([], [])
  | c :: r => if p c then let (a, b) := span p r in (c :: a, b) else ([], l)
  end.

Definition nonempty (l : pystr) : bool := match l with [] => false | _ => true end.

(** [FORMAT_CODE_PATTERN = re.compile(r'(\\[A-Za-z0-9\.]+;)')].  After the
    backslash, the greedy class run can only be followed by [';'] when it is
    maximal ([';'] is not in the class), so backtracking never finds a
    shorter match. *)
Definition format_class (c : N) : bool := ascii_letter c || ascii_digit c || (c =? 46)%N.

Definition match_format_code (r : pystr) : option pystr :=
  let (run, rest) := span format_class r in
  match run, rest with
  | _ :: _, 59%N :: rest' => Some rest'
  | _, _ => None
  end.

(** [FORMAT_CODE_PATTERN.sub('', text)]: scan left to right, drop each match
    and resume after it.  Each step consumes a character, so [length text]
    steps suffice. *)
Fixpoint sub_format_codes (fuel : nat) (t : pystr) : pystr :=
  match fuel with
  | O => t
  | S f =>
    match t with
    | [] => []
    | c :: r =>
        if (c =? 92)%N then
          match match_format_code r with
          | Some rest => sub_format_codes f rest
          | None => c :: sub_format_codes f r
          end
        else c :: sub_format_codes f r
    end
  end.

Definition format_code_sub (t : pystr) : pystr := sub_format_codes (length t) t.

(** [s.replace('\\P', ' ')] *)
Fixpoint replace_par (t : pystr) : pystr :=
  match t with
  | 92%N :: 80%N :: r => 32%N :: replace_par r
  | c :: r => c :: replace_par r
  | [] => []
  end.

(** Lines 214-216: the label of an [MTEXT] entity. *)
Definition clean_text (text : pystr) : pystr := strip (replace_par (format_code_sub text)).

(** An entity of the modelspace: its [dxftype()] and, for [MTEXT], its
    [dxf.text]. *)
Record entity := mk_entity { dxftype : string; etext : pystr }.

(** Lines 208-219: the cleaned, non-empty [MTEXT] texts, in modelspace order. *)
Definition raw_labels (msp : list entity) : list pystr :=
  fold_left
    (fun raw e =>
       if String.eqb (dxftype e) "MTEXT" then
         let cleaned := clean_text (etext e) in
         if nonempty cleaned then raw ++ [cleaned] else raw
       else raw) msp [].

(** [pat in s] for strings. *)
Fixpoint prefixb (pat t : pystr) : bool :=
  match pat, t with
  | [], _ => true
  | c :: p, d :: r => (c =? d)%N && prefixb p r
  | _ :: _, [] => false
  end.

Fixpoint contains (pat t : pystr) : bool :=
  prefixb pat t || match t with [] => false | _ :: r => contains pat r end.

(** [$] in [re.match]: the end of the string, or a final ["\n"]. *)
Definition re_end (rest : pystr) : bool :=
  match rest with [] => true | [c] => (c =? 10)%N | _ => false end.

(** [re.match(r'^[A-Za-z][0-9]+$', label)]; the digit run is greedy and a
    shorter one leaves a digit before [$], so only the maximal run counts. *)
Definition re_single_letter_number (label : pystr) : bool :=
  match label with
  | c :: r => ascii_letter c && (let (ds, rest) := span ascii_digit r in
                                 nonempty ds && re_end rest)
  | [] => false
  end.

(** [re.match(r'^[A-Za-z][0-9]+\.[0-9]+$', label)] *)
Definition re_single_letter_dot (label : pystr) : bool :=
  match label with
  | c :: r =>
      ascii_letter c &&
      (let (d1, r1) := span ascii_digit r in
       nonempty d1 &&
       match r1 with
       | dot :: r2 =>
           (dot =? 46)%N && (let (d2, r3) := span ascii_digit r2 in nonempty d2 && re_end r3)
       | [] => false
       end)
  | [] => false
  end.

(** [re.match(r'^[A-Za-z]+[\+\-]$', label)] *)
Definition re_alpha_plusminus (label : pystr) : bool :=
  let (ls, r) := span ascii_letter label in
  nonempty ls &&
  match r with
  | c :: r' => ((c =? 43)%N || (c =? 45)%N) && re_end r'
  | [] => false
  end.

Record extract_info := mk_extract_info {
  total_extracted : nat;
  filtered_count : nat;
  final_count : nat
}.

Section ExtractLabels.

(** [str.isdigit], [str.islower] and [str.isalpha] on one character. *)
Variables (isdigit_char islower_char isalpha_char : N -> bool).

(** [is_non_part_number(label)]; the [debug] prints are omitted. *)
Definition is_non_part_number (label : pystr) : bool :=
  match label with
  | [] => true
  | c :: _ =>
      if (c =? 40)%N then true
      else if isdigit_char c then true
      else if islower_char c then true
      else if contains [71; 78; 68]%N label then true
      else if (length label =? 1) && forallb isalpha_char label then true
      else if re_single_letter_number label then true
      else if re_single_letter_dot label then true
      else if re_alpha_plusminus label then true
      else false
  end.

(** Lines 222-233: the kept labels and the number filtered out. *)
Definition filter_labels (filter_non_parts : bool) (raw : list pystr)
  : list pystr * nat :=
  if filter_non_parts then
    fold_left
      (fun (acc : list pystr * nat) (label : pystr) =>
         let (kept, n) := acc in
         if negb (is_non_part_number label) then (kept ++ [label], n) else (kept, S n))
      raw ([], 0)
  else (raw, 0).

(** Lines 236-239: [labels.sort()] and [labels.sort(reverse=True)]. *)
Definition sort_labels (sort_order : string) (labels : list pystr) : list pystr :=
  if String.eqb sort_order "asc" then sort_by str_leb labels
  else if String.eqb sort_order "desc" then sort_by (fun a b => str_leb b a) labels
  else labels.

(** [extract_labels(dxf_file, filter_non_parts, sort_order)] once
    [ezdxf.readfile] has produced the modelspace [msp]. *)
Definition extract_labels (msp : list entity) (filter_non_parts : bool)
  (sort_order : string) : list pystr * extract_info :=
  let raw := raw_labels msp in
  let (labels, filtered_count) := filter_labels filter_non_parts raw in
  let labels := sort_labels sort_order labels in
  (labels, mk_extract_info (length raw) filtered_count (length labels)).

End ExtractLabels.

(** ASCII versions of the character classes, which agree with CPython on
    ASCII characters. *)
Definition ascii_isdigit (c : N) : bool := ascii_digit c.
Definition ascii_islower (c : N) : bool := (97 <=? c)%N && (c <=? 122)%N.
Definition ascii_isalpha (c : N) : bool := ascii_letter c.

Definition mtext (t : string) : entity := mk_entity "MTEXT" (s t).

(** The text of a content once decoded, as read by [read_labels_from_content]. *)
Definition content_text (c : content) : pystr + py_exc :=
  match c with PyStr s => inl s | PyBytes b => decode_utf8 b end.

Definition is_blank (l : pystr) : bool :=
  match strip l with [] => true | _ => false end.

(** Number of lines of [text] that are not blank after [strip()] and equal
    [x] once stripped and upper-cased. *)
Definition lines_with (up : N -> list N) (x : pystr) (text : pystr) : nat :=
  length (filter (fun l => negb (is_blank l) && str_eqb (upper up (strip l)) x)
                 (stringio_lines text)).

Definition pystr_eq_dec : forall a b : pystr, {a = b} + {a <> b} :=
  list_eq_dec N.eq_dec.

Definition occ (x : pystr) (l : list pystr) : nat := count_occ pystr_eq_dec l x.

Definition report_missing_in_dxf (o : md_output) : list pystr :=
  match o with MdEmpty => [] | MdReport a _ => a end.

Definition report_missing_in_circuit (o : md_output) : list pystr :=
  match o with MdEmpty => [] | MdReport _ b => b end.

(** The exclusion rules of the label filter, in the words of its description:
    a label is not a part number when it is empty, starts with ['('], starts
    with a digit, starts with a lowercase letter, contains ["GND"], is a single
    alphabetic character, is one letter followed only by digits, is one
    letter, digits, a dot and digits, or is letters followed by one ['+'] or
    ['-'].  The three patterns use ASCII letters and digits, as the regular
    expressions of the source do. *)
Section RulesSpec.

Variables (isdigit_char islower_char isalpha_char : N -> bool).

Definition non_part_by_rules (label : pystr) : Prop :=
  label = []
  \/ (exists r, label = 40%N :: r)
  \/ (exists c r, label = c :: r /\ isdigit_char c = true)
  \/ (exists c r, label = c :: r /\ islower_char c = true)
  \/ (exists p q, label = p ++ [71; 78; 68]%N ++ q)
  \/ (exists c, label = [c] /\ isalpha_char c = true)
  \/ (exists c ds, label = c :: ds /\ ascii_letter c = true /\ ds <> [] /\
                   Forall (fun d => ascii_digit d = true) ds)
  \/ (exists c d1 d2, label = c :: d1 ++ 46%N :: d2 /\ ascii_letter c = true /\
                      d1 <> [] /\ d2 <> [] /\
                      Forall (fun d => ascii_digit d = true) d1 /\
                      Forall (fun d => ascii_digit d = true) d2)
  \/ (exists ls c, label = ls ++ [c] /\ ls <> [] /\
                   Forall (fun a => ascii_letter a = true) ls /\ (c = 43%N \/ c = 45%N)).

(** [kept_by_rules raw kept]: [kept] is [raw] without the labels the rules
    exclude, the others in their original relative order. *)
Inductive kept_by_rules : list pystr -> list pystr -> Prop :=
| kbr_nil : kept_by_rules [] []
| kbr_keep l raw kept :
    ~ non_part_by_rules l -> kept_by_rules raw kept -> kept_by_rules (l :: raw) (l :: kept)
| kbr_drop l raw kept :
    non_part_by_rules l -> kept_by_rules raw kept -> kept_by_rules (l :: raw) kept.

End RulesSpec.

(** [subseq l1 l2]: [l1] is [l2] with some elements left out. *)
Inductive subseq : list pystr -> list pystr -> Prop :=
| subseq_nil : subseq [] []
| subseq_keep x l1 l2 : subseq l1 l2 -> subseq (x :: l1) (x :: l2)
| subseq_skip x l1 l2 : subseq l1 l2 -> subseq l1 (x :: l2).

Definition is_mtext (e : entity) : bool := String.eqb (dxftype e) "MTEXT".

(** The labels read from a decoded text: one per non-blank line, stripped and
    upper-cased, in line order. *)
Definition labels_of (up : N -> list N) (text : pystr) : list pystr :=
  map (fun l => upper up (strip l)) (filter (fun l => negb (is_blank l)) (stringio_lines text)).

Definition info_counts_zero (i : cmp_info) : Prop :=
  dxf_total i = 0 /\ dxf_unique i = 0 /\ circuit_total i = 0 /\
  circuit_unique i = 0 /\ common_count i = 0 /\ missing_in_dxf i = 0 /\
  missing_in_circuit i = 0.

(** ** The geometric comparison entry point

    Modelled from the spec: [compare_dxf_files_and_generate_dxf] of
    [utils/compare_dxf.py], which [app.py] calls with two input paths, an
    output path and a tolerance, is not among the sources.  Following the
    entry point contract ([compare(pathA, pathB, outputPath, tolerance) ->
    Result<DiffSummary, Error>]) and the error taxonomy, the tolerance is
    validated first ([ToleranceError] when it is not finite or not > 0);
    loading, matching, classification and writing are kept abstract. *)

(** A Python [float]: a finite binary value [m * 2^e], an infinity or NaN. *)
Inductive pyfloat :=
| FFinite (m e : Z)
| FPosInf
| FNegInf
| FNaN.

Definition float_positive_finite (f : pyfloat) : bool :=
  match f with FFinite m _ => (0 <? m)%Z | _ => false end.

Inductive diff_error :=
| FormatError
| UnsupportedVersionError
| ToleranceError
| WriteError
| InternalInvariantError.

Inductive result (A E : Type) :=
| Ok (a : A)
| Err (e : E).
Arguments Ok {A E} a.
Arguments Err {A E} e.

Section CompareEntry.

Variables (Document DiffSummary : Type).
(** [load(path)], failing with a typed error and its message. *)
Variable load : string -> result Document (diff_error * string).
(** Normalizer, matcher and classifier at a validated tolerance. *)
Variable classify_diff : Document -> Document -> pyfloat -> DiffSummary.
(** The delta document writer; [false] on a serialization or I/O failure. *)
Variable write_delta : Document -> Document -> pyfloat -> string -> bool.

Definition compare (pathA pathB outputPath : string) (tolerance : pyfloat)
  : result DiffSummary (diff_error * string) :=
  if negb (float_positive_finite tolerance) then
    Err (ToleranceError, "tolerance must be a finite number > 0"%string)
  else
    match load pathA with
    | Err e => Err e
    | Ok docA =>
      match load pathB with
      | Err e => Err e
      | Ok docB =>
          if write_delta docA docB tolerance outputPath
          then Ok (classify_diff docA docB tolerance)
          else Err (WriteError, "the delta document could not be written"%string)
      end
    end.

End CompareEntry.

(** A string that does not start with whitespace. *)
Definition no_lead (l : pystr) : Prop :=
  match l with [] => True | c :: _ => py_isspace c = false end.

(** A label that does not end in a newline. *)
Definition no_nl_end (l : pystr) : Prop := forall p, l <> p ++ [10%N].

(** ** Lemmas on strings *)

Lemma str_eqb_eq a b : str_eqb a b = true <-> a = b.
Proof.
  revert b; induction a as [|x a IH]; intros [|y b]; simpl;
    try (split; congruence).
  rewrite andb_true_iff, N.eqb_eq, IH. split.
  - intros [-> ->]; reflexivity.
  - intros H; injection H; auto.
Qed.

Lemma str_eqb_refl a : str_eqb a a = true.
Proof. apply str_eqb_eq; reflexivity. Qed.

Lemma str_eqb_false a b : str_eqb a b = false <-> a <> b.
Proof.
  rewrite <- str_eqb_eq. destruct (str_eqb a b); split; congruence.
Qed.

Lemma str_eqb_sym a b : str_eqb a b = str_eqb b a.
Proof.
  destruct (str_eqb a b) eqn:E1, (str_eqb b a) eqn:E2; auto.
  - apply str_eqb_eq in E1; subst; rewrite str_eqb_refl in E2; discriminate.
  - apply str_eqb_eq in E2; subst; rewrite str_eqb_refl in E1; discriminate.
Qed.

Lemma str_mem_In x l : str_mem x l = true <-> In x l.
Proof.
  unfold str_mem; rewrite existsb_exists; split.
  - intros [y [Hy Hxy]]; apply str_eqb_eq in Hxy; subst; auto.
  - intros H; exists x; split; auto using str_eqb_refl.
Qed.


Lemma lstrip_no_lead l : no_lead (lstrip l).
Proof.
  induction l as [|c r IH]; simpl; auto.
  destruct (py_isspace c) eqn:E; simpl; auto.
Qed.

Lemma lstrip_id l : no_lead l -> lstrip l = l.
Proof. destruct l as [|c r]; simpl; auto. intros ->; reflexivity. Qed.

Lemma lstrip_suffix l : exists p, l = p ++ lstrip l.
Proof.
  induction l as [|c r [p Hp]]; simpl.
  - exists []; reflexivity.
  - destruct (py_isspace c).
    + exists (c :: p); simpl; congruence.
    + exists []; reflexivity.
Qed.

Lemma no_lead_prefix q r : no_lead (q ++ r) -> q <> [] -> no_lead q.
Proof. destruct q; simpl; congruence. Qed.

Lemma strip_no_lead l : no_lead (strip l).
Proof.
  unfold strip.
  destruct (lstrip_suffix (rev (lstrip l))) as [p Hp].
  assert (E : lstrip l = rev (lstrip (rev (lstrip l))) ++ rev p).
  { transitivity (rev (rev (lstrip l))); [symmetry; apply rev_involutive|].
    rewrite Hp at 1. rewrite rev_app_distr. reflexivity. }
  pose proof (lstrip_no_lead l) as H. rewrite E in H.
  destruct (rev (lstrip (rev (lstrip l)))) as [|c q]; simpl in *; auto.
Qed.

Lemma strip_idem l : strip (strip l) = strip l.
Proof.
  unfold strip at 1. rewrite (lstrip_id _ (strip_no_lead l)).
  unfold strip. rewrite rev_involutive.
  rewrite (lstrip_id _ (lstrip_no_lead _)). reflexivity.
Qed.

(** ** Lemmas on [Counter] *)

Lemma counter_get_add c x y :
  counter_get (counter_add c x) y =
  counter_get c y + (if pystr_eq_dec x y then 1 else 0).
Proof.
  induction c as [|[k n] r IH]; simpl.
  - destruct (pystr_eq_dec x y) as [<-|Hne].
    + rewrite str_eqb_refl; reflexivity.
    + apply str_eqb_false in Hne; rewrite Hne; reflexivity.
  - destruct (str_eqb k x) eqn:Ekx.
    + apply str_eqb_eq in Ekx; subst k; simpl.
      destruct (pystr_eq_dec x y) as [<-|Hne].
      * rewrite str_eqb_refl; lia.
      * apply str_eqb_false in Hne; rewrite Hne; lia.
    + simpl. destruct (str_eqb k y) eqn:Eky; auto.
      apply str_eqb_eq in Eky; subst k.
      destruct (pystr_eq_dec x y) as [->|Hne]; [|lia].
      rewrite str_eqb_refl in Ekx; discriminate.
Qed.

Lemma counter_get_fold l c y :
  counter_get (fold_left counter_add l c) y = counter_get c y + occ y l.
Proof.
  revert c; induction l as [|x l IH]; intros c; simpl.
  - unfold occ; simpl; lia.
  - rewrite IH, counter_get_add. unfold occ; simpl.
    destruct (pystr_eq_dec x y); lia.
Qed.

Lemma counter_get_Counter l y : counter_get (Counter l) y = occ y l.
Proof. unfold Counter. rewrite counter_get_fold. reflexivity. Qed.

Lemma keys_add_In c x k :
  In k (counter_keys (counter_add c x)) <-> In k (counter_keys c) \/ k = x.
Proof.
  induction c as [|[k' n] r IH]; simpl.
  - intuition.
  - destruct (str_eqb k' x) eqn:E; simpl.
    + apply str_eqb_eq in E; subst; intuition.
    + rewrite IH; intuition.
Qed.

Lemma keys_add_NoDup c x :
  NoDup (counter_keys c) -> NoDup (counter_keys (counter_add c x)).
Proof.
  induction c as [|[k n] r IH]; simpl; intros H.
  - constructor; [simpl; auto | constructor].
  - inversion H as [|? ? Hk Hr]; subst.
    destruct (str_eqb k x) eqn:E; simpl; constructor; auto.
    rewrite keys_add_In. intros [Hin|<-]; auto.
    rewrite str_eqb_refl in E; discriminate.
Qed.

Lemma keys_Counter_NoDup l : NoDup (counter_keys (Counter l)).
Proof.
  unfold Counter. assert (H : NoDup (counter_keys [])) by constructor.
  revert H. generalize (@nil (pystr * nat)).
  induction l as [|x l IH]; intros c Hc; simpl; auto using keys_add_NoDup.
Qed.

Lemma keys_Counter_In l k : In k (counter_keys (Counter l)) <-> In k l.
Proof.
  unfold Counter.
  assert (G : forall c, In k (counter_keys (fold_left counter_add l c))
                        <-> In k (counter_keys c) \/ In k l).
  { induction l as [|x l IH]; intros c; simpl.
    - intuition.
    - rewrite IH, keys_add_In. intuition. }
  rewrite G. simpl. intuition.
Qed.

Lemma counter_get_notin c x : ~ In x (counter_keys c) -> counter_get c x = 0.
Proof.
  induction c as [|[k n] r IH]; simpl; auto.
  intros H. destruct (str_eqb k x) eqn:E.
  - apply str_eqb_eq in E; subst; tauto.
  - auto.
Qed.

Lemma occ_app x l1 l2 : occ x (l1 ++ l2) = occ x l1 + occ x l2.
Proof. unfold occ; apply count_occ_app. Qed.

Lemma occ_repeat x k n : occ x (repeat k n) = if pystr_eq_dec k x then n else 0.
Proof.
  unfold occ; induction n as [|n IH]; simpl.
  - destruct (pystr_eq_dec k x); reflexivity.
  - rewrite IH. destruct (pystr_eq_dec k x); lia.
Qed.

Lemma occ_elements c x :
  NoDup (counter_keys c) -> occ x (counter_elements c) = counter_get c x.
Proof.
  induction c as [|[k n] r IH]; simpl; intros H; auto.
  inversion H as [|? ? Hk Hr]; subst.
  unfold counter_elements in *; simpl. rewrite occ_app, occ_repeat, IH by auto.
  destruct (pystr_eq_dec k x) as [<-|Hne].
  - rewrite str_eqb_refl, counter_get_notin by auto. lia.
  - apply str_eqb_false in Hne; rewrite Hne; reflexivity.
Qed.

Lemma keys_sub_In c1 c2 k :
  In k (counter_keys (counter_sub c1 c2)) -> In k (counter_keys c1).
Proof.
  induction c1 as [|[k' n] r IH]; simpl; auto.
  destruct (0 <? n - counter_get c2 k'); simpl; intuition.
Qed.

Lemma keys_sub_NoDup c1 c2 :
  NoDup (counter_keys c1) -> NoDup (counter_keys (counter_sub c1 c2)).
Proof.
  induction c1 as [|[k n] r IH]; simpl; intros H; auto.
  inversion H as [|? ? Hk Hr]; subst.
  destruct (0 <? n - counter_get c2 k); simpl; auto.
  constructor; auto. intros Hin; apply Hk; eapply keys_sub_In; eauto.
Qed.

Lemma counter_get_sub c1 c2 x :
  NoDup (counter_keys c1) ->
  counter_get (counter_sub c1 c2) x = counter_get c1 x - counter_get c2 x.
Proof.
  induction c1 as [|[k n] r IH]; simpl; intros H; auto.
  inversion H as [|? ? Hk Hr]; subst.
  destruct (str_eqb k x) eqn:E.
  - apply str_eqb_eq in E; subst k.
    destruct (0 <? n - counter_get c2 x) eqn:Epos; simpl.
    + rewrite str_eqb_refl; reflexivity.
    + rewrite IH, counter_get_notin by auto. apply Nat.ltb_ge in Epos. lia.
  - destruct (0 <? n - counter_get c2 k); simpl; rewrite ?E; auto.
Qed.

(** The expanded difference holds each label as often as its surplus. *)
Lemma occ_sub_elements l1 l2 x :
  occ x (counter_elements (counter_sub (Counter l1) (Counter l2))) =
  occ x l1 - occ x l2.
Proof.
  rewrite occ_elements by (apply keys_sub_NoDup, keys_Counter_NoDup).
  rewrite counter_get_sub by apply keys_Counter_NoDup.
  rewrite !counter_get_Counter. reflexivity.
Qed.

(** ** Sorting *)

Lemma insert_by_perm le x l : Permutation (x :: l) (insert_by le x l).
Proof.
  induction l as [|y r IH]; simpl; auto.
  destruct (le x y); auto.
  eapply perm_trans; [apply perm_swap|]. auto.
Qed.

Lemma sort_by_perm le l : Permutation l (sort_by le l).
Proof.
  induction l as [|x r IH]; simpl; auto.
  eapply perm_trans; [apply perm_skip, IH | apply insert_by_perm].
Qed.

Lemma occ_perm x l1 l2 : Permutation l1 l2 -> occ x l1 = occ x l2.
Proof. intros H. unfold occ. apply Permutation_count_occ. exact H. Qed.

Lemma occ_sorted x l : occ x (sorted_str l) = occ x l.
Proof. symmetry; apply occ_perm, sort_by_perm. Qed.

(** Python's string order is total. *)
Lemma str_ltb_total a b : str_ltb a b = false -> str_eqb a b = false -> str_ltb b a = true.
Proof.
  revert b; induction a as [|x a IH]; intros [|y b]; simpl; auto; try discriminate.
  intros H1 H2.
  destruct (N.ltb_spec x y) as [Hxy|Hxy]; [discriminate|].
  destruct (N.ltb_spec y x) as [Hyx|Hyx]; [reflexivity|].
  assert (x = y) by lia; subst y. rewrite N.eqb_refl in H2. simpl in H2. auto.
Qed.

Lemma str_leb_total a b : str_leb a b = false -> str_leb b a = true.
Proof.
  unfold str_leb. intros H. apply orb_false_iff in H as [H1 H2].
  rewrite (str_ltb_total a b H1 H2). reflexivity.
Qed.

Section SortedInsert.

Variable le : pystr -> pystr -> bool.
Hypothesis le_total : forall a b, le a b = false -> le b a = true.

Let R := fun a b => le a b = true.

Lemma insert_by_hd y x l : HdRel R y l -> R y x -> HdRel R y (insert_by le x l).
Proof.
  intros H Hyx. destruct l as [|z r]; simpl; auto.
  destruct (le x z); constructor; auto. inversion H; auto.
Qed.

Lemma insert_by_sorted x l : Sorted R l -> Sorted R (insert_by le x l).
Proof.
  induction l as [|y r IH]; simpl; intros H; auto.
  destruct (le x y) eqn:E.
  - constructor; auto.
  - inversion H as [|? ? Hr Hhd]; subst.
    constructor; auto. apply insert_by_hd; auto. apply le_total; auto.
Qed.

Lemma sort_by_sorted l : Sorted R (sort_by le l).
Proof. induction l as [|x r IH]; simpl; auto using insert_by_sorted. Qed.

End SortedInsert.

(** ** Reading labels *)


Lemma read_labels_fold up lines acc :
  fold_left
    (fun labels line =>
       let label := strip line in
       match label with
       | [] => labels
       | _ => labels ++ [normalize_label up label]
       end) lines acc =
  acc ++ map (fun l => upper up (strip l)) (filter (fun l => negb (is_blank l)) lines).
Proof.
  revert acc; induction lines as [|l r IH]; intros acc; simpl.
  - rewrite app_nil_r; reflexivity.
  - rewrite IH. unfold is_blank, normalize_label.
    destruct (strip l) as [|c q] eqn:E; simpl; auto.
    rewrite <- E, strip_idem, <- app_assoc. reflexivity.
Qed.

Lemma read_labels_ok up c text :
  content_text c = inl text -> read_labels_from_content up c = inl (labels_of up text).
Proof.
  intros H. unfold read_labels_from_content. destruct c; simpl in *.
  - injection H as ->. rewrite read_labels_fold; reflexivity.
  - rewrite H, read_labels_fold; reflexivity.
Qed.

Lemma read_labels_err up c e :
  content_text c = inr e -> read_labels_from_content up c = inr e.
Proof.
  intros H. unfold read_labels_from_content. destruct c; simpl in *.
  - discriminate.
  - rewrite H; reflexivity.
Qed.

Lemma occ_map_filter (f : pystr -> pystr) (p : pystr -> bool) x l :
  occ x (map f (filter p l)) = length (filter (fun y => p y && str_eqb (f y) x) l).
Proof.
  unfold occ; induction l as [|y r IH]; simpl; auto.
  destruct (p y); simpl; auto.
  destruct (pystr_eq_dec (f y) x) as [E|E].
  - rewrite (proj2 (str_eqb_eq _ _) E); simpl; auto.
  - apply str_eqb_false in E; rewrite E; auto.
Qed.

Lemma occ_labels_of up x text : occ x (labels_of up text) = lines_with up x text.
Proof. unfold labels_of, lines_with. apply occ_map_filter. Qed.

(** When both contents decode, [compare_parts_list] computes the report. *)
Lemma compare_ok up cx cy sx sy :
  content_text cx = inl sx -> content_text cy = inl sy ->
  compare_parts_list up cx cy =
  (let lx := labels_of up sx in
   let ly := labels_of up sy in
   let mdxf := counter_elements (counter_sub (Counter ly) (Counter lx)) in
   let mcir := counter_elements (counter_sub (Counter lx) (Counter ly)) in
   (MdReport (sorted_str mdxf) (sorted_str mcir),
    mk_info (length lx) (length (Counter lx)) (length ly) (length (Counter ly))
            (common_keys_count (Counter lx) (Counter ly))
            (length mdxf) (length mcir) None)).
Proof.
  intros Hx Hy. unfold compare_parts_list.
  rewrite (read_labels_ok up cx sx Hx), (read_labels_ok up cy sy Hy).
  reflexivity.
Qed.

Lemma compare_err_left up cx cy e :
  content_text cx = inr e ->
  compare_parts_list up cx cy = (MdEmpty, mk_info 0 0 0 0 0 0 0 (Some (exc_str e))).
Proof.
  intros H. unfold compare_parts_list. rewrite (read_labels_err up cx e H).
  reflexivity.
Qed.

Lemma compare_err_right up cx cy sx e :
  content_text cx = inl sx -> content_text cy = inr e ->
  compare_parts_list up cx cy = (MdEmpty, mk_info 0 0 0 0 0 0 0 (Some (exc_str e))).
Proof.
  intros Hx Hy. unfold compare_parts_list.
  rewrite (read_labels_ok up cx sx Hx), (read_labels_err up cy e Hy).
  reflexivity.
Qed.

(** ** Claims on [compare_parts_list] *)

(** C1: labels are compared after [strip()] and [upper()], with multiplicity:
    a label on [m] lines of the first content and [n] of the second appears
    [m - n] times among the labels missing in the circuit list and [n - m]
    times among those missing in the drawing. *)
Theorem compare_parts_list_multiset up cx cy sx sy
  (Hx : content_text cx = inl sx) (Hy : content_text cy = inl sy) :
  exists a b info,
    compare_parts_list up cx cy = (MdReport a b, info) /\
    forall x, occ x b = lines_with up x sx - lines_with up x sy /\
              occ x a = lines_with up x sy - lines_with up x sx.
Proof.
  rewrite (compare_ok up cx cy sx sy Hx Hy).
  do 3 eexists; split; [reflexivity|].
  intros x. rewrite !occ_sorted, !occ_sub_elements, !occ_labels_of. auto.
Qed.

Lemma compare_parts_list_multiset_witness :
  exists a b info,
    compare_parts_list ascii_upper (PyStr (s "r1 
 R1
C2

r1")) (PyStr (s "R1
X")) = (MdReport a b, info) /\
    forall x, occ x b = lines_with ascii_upper x (s "r1 
 R1
C2

r1") - lines_with ascii_upper x (s "R1
X") /\
              occ x a = lines_with ascii_upper x (s "R1
X") - lines_with ascii_upper x (s "r1 
 R1
C2

r1").
Proof. apply compare_parts_list_multiset; reflexivity. Defined.

(** ** Helpers for C2 to C5 *)

Lemma occ_zero_nil l : (forall x, occ x l = 0) -> l = [].
Proof.
  destruct l as [|y r]; auto. intros H. specialize (H y).
  unfold occ in H; simpl in H. destruct (pystr_eq_dec y y); [discriminate|congruence].
Qed.

Lemma sub_self_nil l : counter_elements (counter_sub (Counter l) (Counter l)) = [].
Proof. apply occ_zero_nil. intros x. rewrite occ_sub_elements. lia. Qed.

Lemma occ_pos_In x l : 0 < occ x l <-> In x l.
Proof. unfold occ. rewrite (count_occ_In pystr_eq_dec). lia. Qed.

Lemma common_keys_count_spec lx ly :
  exists l, NoDup l /\ (forall x, In x l <-> In x lx /\ In x ly) /\
            common_keys_count (Counter lx) (Counter ly) = length l.
Proof.
  exists (filter (fun k => str_mem k (counter_keys (Counter ly))) (counter_keys (Counter lx))).
  split; [|split; [|reflexivity]].
  - apply NoDup_filter, keys_Counter_NoDup.
  - intros x. rewrite filter_In, str_mem_In, !keys_Counter_In. tauto.
Qed.

Lemma common_keys_count_sym lx ly :
  common_keys_count (Counter lx) (Counter ly) = common_keys_count (Counter ly) (Counter lx).
Proof.
  destruct (common_keys_count_spec lx ly) as [l1 [N1 [I1 ->]]].
  destruct (common_keys_count_spec ly lx) as [l2 [N2 [I2 ->]]].
  apply Permutation_length, NoDup_Permutation; auto.
  intros x; rewrite I1, I2; tauto.
Qed.


(** C2 (counterexample): bytes that are not UTF-8 make the comparison fail.
    The caller gets a normal return: the empty markdown output, every count
    0, and the exception reduced to its message [str(e)] in the [error]
    field; no exception and no error type reaches the caller. *)
Lemma compare_parts_list_error_downgraded :
  compare_parts_list ascii_upper (PyBytes [xff]) (PyStr (s "R1")) =
  (MdEmpty, mk_info 0 0 0 0 0 0 0
     (Some (s "'utf-8' codec can't decode byte 0xff in position 0: invalid start byte"))).
Proof. vm_compute. reflexivity. Qed.

(** C2 (amended): [compare_parts_list] never raises.  If the first content
    cannot be read, or the first can and the second cannot, the result is
    the empty markdown output, every count 0 and the message of that first
    failure in [error]; if both are read, [error] is unset and a report is
    produced. *)
Theorem compare_parts_list_error_shape up cx cy :
  let r := compare_parts_list up cx cy in
  (forall e, content_text cx = inr e ->
     r = (MdEmpty, mk_info 0 0 0 0 0 0 0 (Some (exc_str e)))) /\
  (forall sx e, content_text cx = inl sx -> content_text cy = inr e ->
     r = (MdEmpty, mk_info 0 0 0 0 0 0 0 (Some (exc_str e)))) /\
  (forall sx sy, content_text cx = inl sx -> content_text cy = inl sy ->
     error (snd r) = None /\ exists a b, fst r = MdReport a b).
Proof.
  cbv zeta. split; [|split].
  - intros e He. apply compare_err_left; exact He.
  - intros sx e Hx He. apply (compare_err_right up cx cy sx e Hx He).
  - intros sx sy Hx Hy. rewrite (compare_ok up cx cy sx sy Hx Hy). simpl. eauto.
Qed.

Lemma compare_parts_list_error_shape_witness :
  compare_parts_list ascii_upper (PyBytes [xff]) (PyBytes [xff]) =
  (MdEmpty, mk_info 0 0 0 0 0 0 0
     (Some (exc_str (UnicodeDecodeError "utf-8" [255%N] 0 1 "invalid start byte")))) /\
  compare_parts_list ascii_upper (PyStr (s "R1")) (PyBytes [x41; xe3; x81]) =
  (MdEmpty, mk_info 0 0 0 0 0 0 0
     (Some (exc_str (UnicodeDecodeError "utf-8" [65; 227; 129]%N 1 3
                      "unexpected end of data")))) /\
  error (snd (compare_parts_list ascii_upper (PyStr (s "R1")) (PyStr (s "r1")))) = None /\
  exists a b, fst (compare_parts_list ascii_upper (PyStr (s "R1")) (PyStr (s "r1"))) =
              MdReport a b.
Proof.
  split; [|split].
  - exact (proj1 (compare_parts_list_error_shape ascii_upper (PyBytes [xff]) (PyBytes [xff]))
             _ eq_refl).
  - exact (proj1 (proj2 (compare_parts_list_error_shape ascii_upper
                           (PyStr (s "R1")) (PyBytes [x41; xe3; x81]))) (s "R1") _
             eq_refl eq_refl).
  - exact (proj2 (proj2 (compare_parts_list_error_shape ascii_upper
                           (PyStr (s "R1")) (PyStr (s "r1")))) (s "R1") (s "r1")
             eq_refl eq_refl).
Defined.

(** C3 (counterexample): the result does not hold the common labels: the
    contents ["A"]/["A"] and ["B"]/["B"] have different common labels and
    the same result. *)
Lemma compare_parts_list_no_common_collection :
  compare_parts_list ascii_upper (PyStr (s "A")) (PyStr (s "A")) =
  compare_parts_list ascii_upper (PyStr (s "B")) (PyStr (s "B")) /\
  labels_of ascii_upper (s "A") <> labels_of ascii_upper (s "B").
Proof.
  split; [vm_compute; reflexivity | vm_compute; discriminate].
Qed.

(** C3 (amended): when both contents decode, the result is a pair of a
    markdown report and an info record.  The report lists, sorted and with
    multiplicity, the surplus labels of the second content, then those of
    the first; the common labels only appear as [common_count], the number
    of distinct labels present in both. *)
Theorem compare_parts_list_result_shape up cx cy sx sy
  (Hx : content_text cx = inl sx) (Hy : content_text cy = inl sy) :
  exists a b info,
    compare_parts_list up cx cy = (MdReport a b, info) /\
    (forall x, occ x a = lines_with up x sy - lines_with up x sx /\
               occ x b = lines_with up x sx - lines_with up x sy) /\
    Sorted (fun u v => str_leb u v = true) a /\
    Sorted (fun u v => str_leb u v = true) b /\
    exists common, NoDup common /\
      (forall x, In x common <-> 0 < lines_with up x sx /\ 0 < lines_with up x sy) /\
      common_count info = length common.
Proof.
  rewrite (compare_ok up cx cy sx sy Hx Hy).
  do 3 eexists; split; [reflexivity|]. split; [|split; [|split]].
  - intros x. rewrite !occ_sorted, !occ_sub_elements, !occ_labels_of. auto.
  - apply sort_by_sorted, str_leb_total.
  - apply sort_by_sorted, str_leb_total.
  - destruct (common_keys_count_spec (labels_of up sx) (labels_of up sy))
      as [l [Hn [Hi Hc]]].
    exists l; split; [exact Hn|split; [|exact Hc]].
    intros x. rewrite Hi, <- !occ_pos_In, !occ_labels_of. tauto.
Qed.

Lemma compare_parts_list_result_shape_witness :
  exists a b info,
    compare_parts_list ascii_upper (PyStr (s "A")) (PyStr (s "a")) = (MdReport a b, info) /\
    (forall x, occ x a = lines_with ascii_upper x (s "a") - lines_with ascii_upper x (s "A") /\
               occ x b = lines_with ascii_upper x (s "A") - lines_with ascii_upper x (s "a")) /\
    Sorted (fun u v => str_leb u v = true) a /\
    Sorted (fun u v => str_leb u v = true) b /\
    exists common, NoDup common /\
      (forall x, In x common <->
         0 < lines_with ascii_upper x (s "A") /\ 0 < lines_with ascii_upper x (s "a")) /\
      common_count info = length common.
Proof. apply compare_parts_list_result_shape; reflexivity. Defined.

(** C4: comparing a content with itself reports no missing label on either
    side, with both counts 0. *)
Theorem compare_parts_list_self up c :
  let r := compare_parts_list up c c in
  report_missing_in_dxf (fst r) = [] /\ report_missing_in_circuit (fst r) = [] /\
  missing_in_dxf (snd r) = 0 /\ missing_in_circuit (snd r) = 0.
Proof.
  destruct (content_text c) as [sx|e] eqn:Hx.
  - rewrite (compare_ok up c c sx sx Hx Hx); simpl.
    rewrite sub_self_nil. auto.
  - rewrite (compare_err_left up c c e Hx); simpl. auto.
Qed.

(** C5: swapping the contents swaps the two lists of missing labels and
    their counts, and keeps the number of common labels. *)
Theorem compare_parts_list_swap up cx cy :
  let r1 := compare_parts_list up cx cy in
  let r2 := compare_parts_list up cy cx in
  report_missing_in_dxf (fst r1) = report_missing_in_circuit (fst r2) /\
  report_missing_in_circuit (fst r1) = report_missing_in_dxf (fst r2) /\
  missing_in_dxf (snd r1) = missing_in_circuit (snd r2) /\
  missing_in_circuit (snd r1) = missing_in_dxf (snd r2) /\
  common_count (snd r1) = common_count (snd r2).
Proof.
  destruct (content_text cx) as [sx|ex] eqn:Hx;
  destruct (content_text cy) as [sy|ey] eqn:Hy.
  - rewrite (compare_ok up cx cy sx sy Hx Hy), (compare_ok up cy cx sy sx Hy Hx).
    simpl. rewrite common_keys_count_sym. auto.
  - rewrite (compare_err_right up cx cy sx ey Hx Hy), (compare_err_left up cy cx ey Hy).
    simpl; auto.
  - rewrite (compare_err_left up cx cy ex Hx), (compare_err_right up cy cx sy ex Hy Hx).
    simpl; auto.
  - rewrite (compare_err_left up cx cy ex Hx), (compare_err_left up cy cx ey Hy).
    simpl; auto.
Qed.

(** ** Lemmas on [extract_labels] *)

Lemma strip_last l p c : strip l = p ++ [c] -> py_isspace c = false.
Proof.
  unfold strip. intros H.
  pose proof (lstrip_no_lead (rev (lstrip l))) as Hn.
  apply (f_equal (@rev N)) in H. rewrite rev_involutive, rev_app_distr in H.
  simpl in H. rewrite H in Hn. exact Hn.
Qed.

Lemma strip_not_newline_end l p : strip l <> p ++ [10%N].
Proof. intros H. apply strip_last in H. discriminate. Qed.

Lemma raw_labels_spec msp :
  raw_labels msp = filter nonempty (map (fun e => clean_text (etext e)) (filter is_mtext msp)).
Proof.
  unfold raw_labels.
  assert (G : forall acc, fold_left
    (fun raw e =>
       if String.eqb (dxftype e) "MTEXT" then
         let cleaned := clean_text (etext e) in
         if nonempty cleaned then raw ++ [cleaned] else raw
       else raw) msp acc =
    acc ++ filter nonempty (map (fun e => clean_text (etext e)) (filter is_mtext msp))).
  { induction msp as [|e r IH]; intros acc; simpl.
    - rewrite app_nil_r; reflexivity.
    - unfold is_mtext at 1. destruct (String.eqb (dxftype e) "MTEXT"); simpl; rewrite IH; auto.
      destruct (nonempty (clean_text (etext e))); rewrite <- ?app_assoc; reflexivity. }
  apply G.
Qed.

(** Every raw label is a non-empty result of [strip()]. *)
Lemma raw_labels_strip msp l :
  In l (raw_labels msp) -> l <> [] /\ exists t, l = strip t.
Proof.
  rewrite raw_labels_spec, filter_In, in_map_iff.
  intros [[e [<- _]] Hne]. split.
  - destruct (clean_text (etext e)); simpl in Hne; congruence.
  - unfold clean_text; eauto.
Qed.

Section ExtractProofs.

Variables (isdigit_char islower_char isalpha_char : N -> bool).

Abbreviation npn := (is_non_part_number isdigit_char islower_char isalpha_char).

Lemma filter_labels_true raw :
  filter_labels isdigit_char islower_char isalpha_char true raw =
  (filter (fun l => negb (npn l)) raw, length (filter npn raw)).
Proof.
  unfold filter_labels.
  assert (G : forall kept n, fold_left
    (fun (acc : list pystr * nat) (label : pystr) =>
       let (kept, n) := acc in
       if negb (npn label) then (kept ++ [label], n) else (kept, S n)) raw (kept, n) =
    (kept ++ filter (fun l => negb (npn l)) raw, n + length (filter npn raw))).
  { induction raw as [|x r IH]; intros kept n; simpl.
    - rewrite app_nil_r, Nat.add_0_r; reflexivity.
    - destruct (npn x); simpl; rewrite IH.
      + f_equal. simpl. lia.
      + rewrite <- app_assoc; reflexivity. }
  rewrite G. reflexivity.
Qed.

Lemma filter_partition_length (p : pystr -> bool) l :
  length l = length (filter p l) + length (filter (fun x => negb (p x)) l).
Proof. induction l as [|x r IH]; simpl; auto. destruct (p x); simpl; lia. Qed.

Lemma sort_labels_perm so l : Permutation l (sort_labels so l).
Proof.
  unfold sort_labels.
  destruct (String.eqb so "asc"); [apply sort_by_perm|].
  destruct (String.eqb so "desc"); [apply sort_by_perm|apply Permutation_refl].
Qed.

Lemma filter_labels_subseq fnp raw :
  subseq (fst (filter_labels isdigit_char islower_char isalpha_char fnp raw)) raw.
Proof.
  destruct fnp.
  - rewrite filter_labels_true; simpl.
    induction raw as [|x r IH]; simpl; [constructor|].
    destruct (negb (npn x)); constructor; auto.
  - simpl. induction raw as [|x r IH]; constructor; auto.
Qed.

Lemma filter_labels_incl fnp raw l :
  In l (fst (filter_labels isdigit_char islower_char isalpha_char fnp raw)) -> In l raw.
Proof.
  destruct fnp.
  - rewrite filter_labels_true; simpl. rewrite filter_In. tauto.
  - simpl; auto.
Qed.

End ExtractProofs.


(** ** The classification of [is_non_part_number] *)

Lemma prefixb_spec pat t : prefixb pat t = true <-> exists q, t = pat ++ q.
Proof.
  revert t; induction pat as [|c p IH]; intros [|d r]; simpl.
  - split; eauto.
  - split; eauto.
  - split; [discriminate|intros [q Hq]; discriminate].
  - rewrite andb_true_iff, N.eqb_eq, IH. split.
    + intros [-> [q ->]]; eauto.
    + intros [q Hq]; injection Hq as -> ->; eauto.
Qed.

Lemma contains_spec pat t : contains pat t = true <-> exists p q, t = p ++ pat ++ q.
Proof.
  induction t as [|c r IH]; simpl.
  - rewrite orb_false_r, prefixb_spec. split.
    + intros [q Hq]. exists [], q. simpl; auto.
    + intros [p [q Hpq]]. destruct p; [|discriminate]. simpl in Hpq. eauto.
  - rewrite orb_true_iff, prefixb_spec, IH. split.
    + intros [[q Hq]|[p [q Hpq]]].
      * exists [], q; auto.
      * exists (c :: p), q. simpl; congruence.
    + intros [[|a p] [q Hpq]]; simpl in Hpq.
      * left; eauto.
      * injection Hpq as -> Hr. right; eauto.
Qed.

Lemma span_spec p l a b :
  span p l = (a, b) ->
  l = a ++ b /\ Forall (fun x => p x = true) a /\ (forall c r, b = c :: r -> p c = false).
Proof.
  revert a b; induction l as [|c r IH]; intros a b; simpl.
  - intros H; injection H as <- <-; repeat split; auto; discriminate.
  - destruct (p c) eqn:Ec.
    + destruct (span p r) as [a' b'] eqn:Es. intros H; injection H as <- <-.
      destruct (IH a' b' eq_refl) as [-> [Fa Hb]]. repeat split; auto.
    + intros H; injection H as <- <-. repeat split; auto.
      intros c' r' Hc; injection Hc as -> ->; auto.
Qed.

Lemma span_app p a b :
  Forall (fun x => p x = true) a -> (forall c r, b = c :: r -> p c = false) ->
  span p (a ++ b) = (a, b).
Proof.
  intros Fa Hb. induction Fa as [|x a Hx Fa IH]; simpl.
  - destruct b as [|c r]; simpl; auto. rewrite (Hb c r eq_refl). reflexivity.
  - rewrite Hx, IH. reflexivity.
Qed.

Lemma span_all p a : Forall (fun x => p x = true) a -> span p a = (a, []).
Proof.
  intros Fa. rewrite <- (app_nil_r a) at 1. apply span_app; auto. discriminate.
Qed.


Lemma re_end_iff pre rest :
  no_nl_end (pre ++ rest) -> re_end rest = true <-> rest = [].
Proof.
  intros H. destruct rest as [|x [|y z]]; simpl.
  - split; auto.
  - rewrite N.eqb_eq. split; [|discriminate]. intros ->. exfalso; apply (H pre); auto.
  - split; discriminate.
Qed.

Lemma nonempty_iff l : nonempty l = true <-> l <> [].
Proof. destruct l; simpl; split; congruence. Qed.

Lemma re_single_letter_number_spec l :
  no_nl_end l ->
  re_single_letter_number l = true <->
  exists c ds, l = c :: ds /\ ascii_letter c = true /\ ds <> [] /\
               Forall (fun d => ascii_digit d = true) ds.
Proof.
  intros Hnl. split.
  - destruct l as [|c r]; simpl; [discriminate|].
    destruct (span ascii_digit r) as [ds rest] eqn:Es.
    rewrite !andb_true_iff, nonempty_iff. intros [Hc [Hds He]].
    destruct (span_spec _ _ _ _ Es) as [-> [Fd _]].
    rewrite (re_end_iff (c :: ds) rest Hnl) in He. subst rest.
    exists c, ds. rewrite app_nil_r. auto.
  - intros [c [ds [-> [Hc [Hds Fd]]]]]. simpl.
    rewrite Hc, (span_all _ _ Fd). simpl. apply nonempty_iff in Hds. rewrite Hds. auto.
Qed.

Lemma re_single_letter_dot_spec l :
  no_nl_end l ->
  re_single_letter_dot l = true <->
  exists c d1 d2, l = c :: d1 ++ 46%N :: d2 /\ ascii_letter c = true /\
                  d1 <> [] /\ d2 <> [] /\
                  Forall (fun d => ascii_digit d = true) d1 /\
                  Forall (fun d => ascii_digit d = true) d2.
Proof.
  intros Hnl. split.
  - destruct l as [|c r]; simpl; [discriminate|].
    destruct (span ascii_digit r) as [d1 r1] eqn:E1.
    destruct (span_spec _ _ _ _ E1) as [-> [F1 _]].
    rewrite !andb_true_iff, nonempty_iff. intros [Hc [Hd1 H]].
    destruct r1 as [|dot r2]; [discriminate|].
    destruct (span ascii_digit r2) as [d2 r3] eqn:E2.
    destruct (span_spec _ _ _ _ E2) as [-> [F2 _]].
    rewrite !andb_true_iff, nonempty_iff, N.eqb_eq in H. destruct H as [-> [Hd2 He]].
    rewrite (re_end_iff (c :: d1 ++ 46%N :: d2) r3) in He.
    + subst r3. exists c, d1, d2. rewrite app_nil_r. auto 7.
    + replace ((c :: d1 ++ 46%N :: d2) ++ r3) with (c :: d1 ++ 46%N :: d2 ++ r3)
        by (simpl; rewrite <- app_assoc; reflexivity).
      exact Hnl.
  - intros [c [d1 [d2 [-> [Hc [Hd1 [Hd2 [F1 F2]]]]]]]]. simpl.
    rewrite Hc, (span_app _ d1 (46%N :: d2) F1) by (intros c' r' E; injection E as <- _; reflexivity).
    rewrite (span_all _ _ F2). simpl.
    apply nonempty_iff in Hd1, Hd2. rewrite Hd1, Hd2. reflexivity.
Qed.

Lemma re_alpha_plusminus_spec l :
  no_nl_end l ->
  re_alpha_plusminus l = true <->
  exists ls c, l = ls ++ [c] /\ ls <> [] /\
               Forall (fun a => ascii_letter a = true) ls /\ (c = 43%N \/ c = 45%N).
Proof.
  intros Hnl. split.
  - unfold re_alpha_plusminus.
    destruct (span ascii_letter l) as [ls r] eqn:Es.
    destruct (span_spec _ _ _ _ Es) as [-> [Fl _]].
    rewrite andb_true_iff, nonempty_iff. intros [Hls H].
    destruct r as [|c r']; [discriminate|].
    rewrite andb_true_iff, orb_true_iff, !N.eqb_eq in H. destruct H as [Hc He].
    rewrite (re_end_iff (ls ++ [c]) r') in He.
    + subst r'. exists ls, c. auto.
    + replace ((ls ++ [c]) ++ r') with (ls ++ c :: r')
        by (rewrite <- app_assoc; reflexivity).
      exact Hnl.
  - intros [ls [c [-> [Hls [Fl Hc]]]]]. unfold re_alpha_plusminus.
    rewrite (span_app _ ls [c] Fl)
      by (intros c' r' E; injection E as <- _; destruct Hc as [-> | ->]; reflexivity).
    apply nonempty_iff in Hls. rewrite Hls. simpl.
    destruct Hc as [-> | ->]; reflexivity.
Qed.

Section Classification.

Variables (isdigit_char islower_char isalpha_char : N -> bool).

Lemma is_non_part_number_orb c r :
  is_non_part_number isdigit_char islower_char isalpha_char (c :: r) =
  (c =? 40)%N || isdigit_char c || islower_char c || contains [71; 78; 68]%N (c :: r)
  || ((length (c :: r) =? 1) && forallb isalpha_char (c :: r))
  || re_single_letter_number (c :: r) || re_single_letter_dot (c :: r)
  || re_alpha_plusminus (c :: r).
Proof.
  unfold is_non_part_number.
  destruct (c =? 40)%N, (isdigit_char c), (islower_char c),
    (contains [71; 78; 68]%N (c :: r)),
    ((length (c :: r) =? 1) && forallb isalpha_char (c :: r)),
    (re_single_letter_number (c :: r)), (re_single_letter_dot (c :: r)),
    (re_alpha_plusminus (c :: r)); reflexivity.
Qed.

Lemma single_alpha_iff l :
  (length l =? 1) && forallb isalpha_char l = true <->
  exists c, l = [c] /\ isalpha_char c = true.
Proof.
  destruct l as [|c [|d r]]; simpl.
  - split; [discriminate|intros [c [H _]]; discriminate].
  - rewrite andb_true_r. split; eauto. intros [c' [E H]]; injection E as ->; auto.
  - split; [discriminate|intros [c' [E _]]; discriminate].
Qed.

(** [is_non_part_number] excludes exactly the labels the rules describe, for
    every label that does not end in a newline. *)
Lemma is_non_part_number_rules l :
  no_nl_end l ->
  is_non_part_number isdigit_char islower_char isalpha_char l = true <->
  non_part_by_rules isdigit_char islower_char isalpha_char l.
Proof.
  intros Hnl. unfold non_part_by_rules.
  destruct l as [|c r].
  - simpl. split; auto.
  - rewrite is_non_part_number_orb, !orb_true_iff.
    rewrite contains_spec, single_alpha_iff, re_single_letter_number_spec,
      re_single_letter_dot_spec, re_alpha_plusminus_spec by exact Hnl.
    assert (E40 : (c =? 40)%N = true <-> exists r', c :: r = 40%N :: r').
    { rewrite N.eqb_eq. split; [intros ->; eauto|intros [r' E]; injection E; auto]. }
    assert (Ed : isdigit_char c = true <->
                 exists c' r', c :: r = c' :: r' /\ isdigit_char c' = true).
    { split; [eauto|intros [c' [r' [E H]]]; injection E as -> ->; auto]. }
    assert (El : islower_char c = true <->
                 exists c' r', c :: r = c' :: r' /\ islower_char c' = true).
    { split; [eauto|intros [c' [r' [E H]]]; injection E as -> ->; auto]. }
    rewrite E40, Ed, El.
    assert (c :: r <> []) by discriminate.
    tauto.
Qed.

End Classification.

(** ** Claims on [extract_labels] *)

Lemma extract_labels_fst isd isl isa msp fnp so :
  fst (extract_labels isd isl isa msp fnp so) =
  sort_labels so (fst (filter_labels isd isl isa fnp (raw_labels msp))).
Proof.
  unfold extract_labels. destruct (filter_labels isd isl isa fnp (raw_labels msp)).
  reflexivity.
Qed.

Lemma extract_labels_snd isd isl isa msp fnp so :
  snd (extract_labels isd isl isa msp fnp so) =
  let fl := filter_labels isd isl isa fnp (raw_labels msp) in
  mk_extract_info (length (raw_labels msp)) (snd fl) (length (sort_labels so (fst fl))).
Proof.
  unfold extract_labels. destruct (filter_labels isd isl isa fnp (raw_labels msp)).
  reflexivity.
Qed.

Lemma extract_labels_In isd isl isa msp fnp so l :
  In l (fst (extract_labels isd isl isa msp fnp so)) -> In l (raw_labels msp).
Proof.
  rewrite extract_labels_fst. intros H.
  apply (Permutation_in _ (Permutation_sym (sort_labels_perm so _))) in H.
  eapply filter_labels_incl; eauto.
Qed.

Lemma extract_labels_nonempty isd isl isa msp fnp so :
  Forall (fun l => l <> []) (fst (extract_labels isd isl isa msp fnp so)).
Proof.
  apply Forall_forall. intros l H.
  apply extract_labels_In in H. apply raw_labels_strip in H. tauto.
Qed.

Lemma labels_of_nonempty up text :
  (forall c, up c <> []) -> Forall (fun l => l <> []) (labels_of up text).
Proof.
  intros Hup. unfold labels_of. apply Forall_forall. intros l Hl.
  apply in_map_iff in Hl as [x [<- Hx]]. apply filter_In in Hx as [_ Hb].
  unfold is_blank in Hb. unfold upper.
  destruct (strip x) as [|c q]; [discriminate|]. simpl.
  specialize (Hup c). destruct (up c); [congruence|discriminate].
Qed.

(** C6: the empty string is never a label: [extract_labels] drops entities
    whose cleaned text is empty, and [read_labels_from_content] skips lines
    that are blank after [strip()]. *)
Theorem empty_text_dropped up (Hup : forall c, up c <> [])
  isd isl isa msp fnp so c text (Hc : content_text c = inl text) :
  Forall (fun l => l <> []) (fst (extract_labels isd isl isa msp fnp so)) /\
  exists labels, read_labels_from_content up c = inl labels /\
                 Forall (fun l => l <> []) labels.
Proof.
  split; [apply extract_labels_nonempty|].
  exists (labels_of up text). split.
  - apply read_labels_ok; exact Hc.
  - apply labels_of_nonempty; exact Hup.
Qed.

Lemma ascii_upper_nonempty c : ascii_upper c <> [].
Proof. unfold ascii_upper. destruct (_ && _); discriminate. Qed.

Lemma empty_text_dropped_witness :
  Forall (fun l => l <> [])
    (fst (extract_labels ascii_isdigit ascii_islower ascii_isalpha
            [mtext "\P"; mtext "R1"; mtext "\A1;"] false "none")) /\
  exists labels, read_labels_from_content ascii_upper (PyStr (s "r1
 
C2")) = inl labels /\ Forall (fun l => l <> []) labels.
Proof.
  apply (empty_text_dropped ascii_upper ascii_upper_nonempty _ _ _ _ _ _
           (PyStr (s "r1
 
C2")) (s "r1
 
C2")).
  reflexivity.
Defined.

(** C7: without sorting ([sort_order = 'none']) the labels keep the order of
    the [MTEXT] entities in the modelspace; with ['asc'] they are in
    ascending, with ['desc'] in descending string order; none is empty. *)
Theorem extract_labels_order isd isl isa msp fnp so :
  let labels := fst (extract_labels isd isl isa msp fnp so) in
  Forall (fun l => l <> []) labels /\
  raw_labels msp = filter nonempty (map (fun e => clean_text (etext e)) (filter is_mtext msp)) /\
  (so = "none"%string -> subseq labels (raw_labels msp)) /\
  (so = "asc"%string -> Sorted (fun a b => str_leb a b = true) labels) /\
  (so = "desc"%string -> Sorted (fun a b => str_leb b a = true) labels).
Proof.
  cbv zeta. split; [apply extract_labels_nonempty|].
  split; [apply raw_labels_spec|].
  rewrite extract_labels_fst. repeat split; intros ->; unfold sort_labels; simpl.
  - apply filter_labels_subseq.
  - apply sort_by_sorted, str_leb_total.
  - apply sort_by_sorted. intros a b; apply str_leb_total.
Qed.

Lemma extract_labels_order_witness :
  let labels := fst (extract_labels ascii_isdigit ascii_islower ascii_isalpha
                       [mtext "XB"; mtext "XA"] false "none") in
  Forall (fun l => l <> []) labels /\
  raw_labels [mtext "XB"; mtext "XA"] =
    filter nonempty (map (fun e => clean_text (etext e)) (filter is_mtext [mtext "XB"; mtext "XA"])) /\
  ("none"%string = "none"%string -> subseq labels (raw_labels [mtext "XB"; mtext "XA"])) /\
  ("none"%string = "asc"%string -> Sorted (fun a b => str_leb a b = true) labels) /\
  ("none"%string = "desc"%string -> Sorted (fun a b => str_leb b a = true) labels).
Proof. exact (extract_labels_order _ _ _ [mtext "XB"; mtext "XA"] false "none"). Defined.

(** C9: [total_extracted = filtered_count + final_count]; without filtering
    nothing is counted as filtered. *)
Theorem extract_labels_counts isd isl isa msp fnp so :
  let i := snd (extract_labels isd isl isa msp fnp so) in
  total_extracted i = filtered_count i + final_count i /\
  (fnp = false -> filtered_count i = 0 /\ final_count i = total_extracted i).
Proof.
  cbv zeta. rewrite extract_labels_snd. cbv zeta. simpl.
  rewrite <- (Permutation_length (sort_labels_perm so _)).
  destruct fnp.
  - rewrite filter_labels_true. simpl. split; [apply filter_partition_length|discriminate].
  - simpl. auto.
Qed.

Lemma extract_labels_counts_witness :
  let i := snd (extract_labels ascii_isdigit ascii_islower ascii_isalpha
                  [mtext "R1"; mtext "XA"] false "asc") in
  total_extracted i = filtered_count i + final_count i /\
  (false = false -> filtered_count i = 0 /\ final_count i = total_extracted i).
Proof. exact (extract_labels_counts _ _ _ [mtext "R1"; mtext "XA"] false "asc"). Defined.

Lemma no_nl_end_last l : last l 0%N <> 10%N -> no_nl_end l.
Proof. intros H p E. subst l. rewrite last_last in H. auto. Qed.

Lemma no_nl_end_strip t : no_nl_end (strip t).
Proof. intros p. apply strip_not_newline_end. Qed.

Lemma kept_by_rules_filter isd isl isa raw :
  (forall l, In l raw -> no_nl_end l) ->
  kept_by_rules isd isl isa raw
    (filter (fun l => negb (is_non_part_number isd isl isa l)) raw).
Proof.
  induction raw as [|x r IH]; intros H; simpl; [constructor|].
  assert (Hx : no_nl_end x) by (apply H; left; auto).
  assert (Hr : forall l, In l r -> no_nl_end l) by (intros; apply H; right; auto).
  destruct (is_non_part_number isd isl isa x) eqn:E; simpl.
  - apply kbr_drop; [|auto]. apply is_non_part_number_rules; auto.
  - apply kbr_keep; [|auto]. rewrite <- is_non_part_number_rules by exact Hx.
    congruence.
Qed.

(** C10 (counterexample): with [filter_non_parts] and the ['asc'] order, two
    kept labels ["XB"], ["XA"] come out as ["XA"], ["XB"], not in their
    original relative order. *)
Lemma extract_labels_filter_sorted_order :
  ~ kept_by_rules ascii_isdigit ascii_islower ascii_isalpha
      (raw_labels [mtext "XB"; mtext "XA"])
      (fst (extract_labels ascii_isdigit ascii_islower ascii_isalpha
              [mtext "XB"; mtext "XA"] true "asc")).
Proof.
  assert (E1 : raw_labels [mtext "XB"; mtext "XA"] = [[88; 66]; [88; 65]]%N)
    by reflexivity.
  assert (E2 : fst (extract_labels ascii_isdigit ascii_islower ascii_isalpha
                      [mtext "XB"; mtext "XA"] true "asc") = [[88; 65]; [88; 66]]%N)
    by reflexivity.
  rewrite E1, E2.
  assert (NB : ~ non_part_by_rules ascii_isdigit ascii_islower ascii_isalpha [88; 66]%N).
  { rewrite <- is_non_part_number_rules.
    - vm_compute; discriminate.
    - apply no_nl_end_last; vm_compute; discriminate. }
  assert (NA : ~ non_part_by_rules ascii_isdigit ascii_islower ascii_isalpha [88; 65]%N).
  { rewrite <- is_non_part_number_rules.
    - vm_compute; discriminate.
    - apply no_nl_end_last; vm_compute; discriminate. }
  intros H. inversion H as [|? ? ? _ _|? ? ? Hd _]; subst; auto.
Qed.

(** C10 (amended): with [filter_non_parts] set, a label is excluded exactly
    when the rules classify it as a non part number; the kept labels keep
    their original relative order unless [sort_order] is ['asc'] or
    ['desc'], in which case they are then sorted. *)
Theorem extract_labels_filter_rules isd isl isa msp so :
  let labels := fst (extract_labels isd isl isa msp true so) in
  exists kept, kept_by_rules isd isl isa (raw_labels msp) kept /\
               Permutation kept labels /\
               (String.eqb so "asc" = false -> String.eqb so "desc" = false ->
                labels = kept) /\
               (so = "asc"%string -> Sorted (fun a b => str_leb a b = true) labels) /\
               (so = "desc"%string -> Sorted (fun a b => str_leb b a = true) labels).
Proof.
  cbv zeta. rewrite extract_labels_fst, filter_labels_true. simpl.
  eexists; split; [|split; [|split; [|split]]].
  - apply kept_by_rules_filter. intros l Hl.
    apply raw_labels_strip in Hl as [_ [t ->]]. apply no_nl_end_strip.
  - apply sort_labels_perm.
  - intros Ha Hd. unfold sort_labels. rewrite Ha, Hd. reflexivity.
  - intros ->. unfold sort_labels; simpl. apply sort_by_sorted, str_leb_total.
  - intros ->. unfold sort_labels; simpl. apply sort_by_sorted.
    intros a b; apply str_leb_total.
Qed.

Lemma extract_labels_filter_rules_witness :
  let labels := fst (extract_labels ascii_isdigit ascii_islower ascii_isalpha
                       [mtext "XB"; mtext "R1"; mtext "XA"] true "none") in
  exists kept, kept_by_rules ascii_isdigit ascii_islower ascii_isalpha
                 (raw_labels [mtext "XB"; mtext "R1"; mtext "XA"]) kept /\
               Permutation kept labels /\
               (String.eqb "none" "asc" = false -> String.eqb "none" "desc" = false ->
                labels = kept) /\
               ("none"%string = "asc"%string -> Sorted (fun a b => str_leb a b = true) labels) /\
               ("none"%string = "desc"%string -> Sorted (fun a b => str_leb b a = true) labels).
Proof. exact (extract_labels_filter_rules _ _ _ [mtext "XB"; mtext "R1"; mtext "XA"] "none"). Defined.

(** ** Claim on the comparison entry point *)

(** C8: the entry point returns a [result] holding a summary or a typed
    error with its message, and a tolerance that is not a finite number
    above 0 gives [ToleranceError]. *)
Theorem compare_tolerance_error (Document DiffSummary : Type)
  (load : string -> result Document (diff_error * string))
  (classify_diff : Document -> Document -> pyfloat -> DiffSummary)
  (write_delta : Document -> Document -> pyfloat -> string -> bool)
  pathA pathB outputPath tolerance
  (Htol : float_positive_finite tolerance = false) :
  exists msg, compare Document DiffSummary load classify_diff write_delta
                pathA pathB outputPath tolerance = Err (ToleranceError, msg).
Proof.
  unfold compare. rewrite Htol. simpl. eauto.
Qed.

Lemma compare_tolerance_error_witness :
  float_positive_finite (FFinite 0 0) = false /\
  exists msg, compare unit nat (fun _ => Ok tt) (fun _ _ _ => 0) (fun _ _ _ _ => true)
                "a.dxf" "b.dxf" "out.dxf" (FFinite 0 0) = Err (ToleranceError, msg).
Proof.
  split; [reflexivity|].
  apply (compare_tolerance_error unit nat (fun _ => Ok tt) (fun _ _ _ => 0)
           (fun _ _ _ _ => true) "a.dxf" "b.dxf" "out.dxf" (FFinite 0 0)).
  reflexivity.
Defined.

(** * Further properties of the code *)

(** ** Python's string order *)

Lemma str_leb_nil b : str_leb [] b = true.
Proof. destruct b; reflexivity. Qed.

Lemma str_leb_cons_nil x a : str_leb (x :: a) [] = false.
Proof. reflexivity. Qed.

Lemma str_leb_cons x a y b :
  str_leb (x :: a) (y :: b) = (x <? y)%N || ((x =? y)%N && str_leb a b).
Proof.
  unfold str_leb; simpl.
  destruct (N.ltb_spec x y) as [H1|H1]; simpl.
  - reflexivity.
  - destruct (N.ltb_spec y x) as [H2|H2]; simpl.
    + assert (E : (x =? y)%N = false) by (apply N.eqb_neq; lia). rewrite E. reflexivity.
    + assert (x = y) by lia; subst. rewrite N.eqb_refl. reflexivity.
Qed.

Lemma str_leb_trans a b c : str_leb a b = true -> str_leb b c = true -> str_leb a c = true.
Proof.
  revert b c; induction a as [|x a IH]; intros b c H1 H2.
  - apply str_leb_nil.
  - destruct b as [|y b]; [discriminate|]. destruct c as [|z c]; [discriminate|].
    rewrite str_leb_cons in *.
    apply orb_true_iff in H1, H2. apply orb_true_iff.
    rewrite andb_true_iff, N.ltb_lt, N.eqb_eq in *.
    destruct H1 as [H1|[-> H1]], H2 as [H2|[-> H2]].
    + left; lia.
    + left; lia.
    + left; lia.
    + right; split; [reflexivity|]. eapply IH; eauto.
Qed.

Lemma str_leb_antisym a b : str_leb a b = true -> str_leb b a = true -> a = b.
Proof.
  revert b; induction a as [|x a IH]; intros [|y b] H1 H2; auto; try discriminate.
  rewrite str_leb_cons in *.
  apply orb_true_iff in H1, H2. rewrite andb_true_iff, N.ltb_lt, N.eqb_eq in *.
  destruct H1 as [H1|[-> H1]], H2 as [H2|[E H2]]; try lia.
  f_equal. auto.
Qed.

(** ** Sorted permutations *)

Section SortedUnique.

Variable R : pystr -> pystr -> Prop.
Hypothesis R_antisym : forall a b, R a b -> R b a -> a = b.

Lemma strongly_sorted_unique l1 l2 :
  StronglySorted R l1 -> StronglySorted R l2 -> Permutation l1 l2 -> l1 = l2.
Proof.
  revert l2; induction l1 as [|a r1 IH]; intros l2 S1 S2 P.
  - symmetry; apply Permutation_nil; exact P.
  - destruct l2 as [|b r2].
    + apply Permutation_sym, Permutation_nil in P; discriminate.
    + apply StronglySorted_inv in S1 as [S1 F1].
      apply StronglySorted_inv in S2 as [S2 F2].
      assert (Eab : a = b).
      { assert (Ha : In a (b :: r2)) by (eapply Permutation_in; eauto; left; auto).
        assert (Hb : In b (a :: r1)) by (eapply Permutation_in;
                       [apply Permutation_sym; eauto|left; auto]).
        destruct Ha as [->|Ha]; auto. destruct Hb as [->|Hb]; auto.
        apply R_antisym.
        - rewrite Forall_forall in F1; auto.
        - rewrite Forall_forall in F2; auto. }
      subst b. f_equal. apply IH; auto. eapply Permutation_cons_inv; eauto.
Qed.

Lemma strongly_sorted_snoc l a :
  StronglySorted R l -> (forall x, In x l -> R x a) -> StronglySorted R (l ++ [a]).
Proof.
  induction l as [|x r IH]; simpl; intros S H.
  - repeat constructor.
  - apply StronglySorted_inv in S as [S F]. constructor.
    + apply IH; auto.
    + apply Forall_app; split; auto.
Qed.

Lemma strongly_sorted_rev l :
  StronglySorted (fun a b => R b a) l -> StronglySorted R (rev l).
Proof.
  induction l as [|x r IH]; simpl; intros S; [constructor|].
  apply StronglySorted_inv in S as [S F]. apply strongly_sorted_snoc; auto.
  intros y Hy. apply in_rev in Hy. rewrite Forall_forall in F; auto.
Qed.

End SortedUnique.

(** ** More on [compare_parts_list] *)

Lemma length_Counter_keys l : length (Counter l) = length (counter_keys (Counter l)).
Proof. unfold counter_keys. rewrite length_map. reflexivity. Qed.

Lemma Counter_distinct up text :
  exists u, NoDup u /\ (forall x, In x u <-> 0 < lines_with up x text) /\
            length (Counter (labels_of up text)) = length u.
Proof.
  exists (counter_keys (Counter (labels_of up text))). split; [|split].
  - apply keys_Counter_NoDup.
  - intros x. rewrite keys_Counter_In, <- occ_pos_In, occ_labels_of. tauto.
  - apply length_Counter_keys.
Qed.

(** [dxf_unique] and [circuit_unique] are the numbers of distinct labels of
    each content. *)
Theorem compare_unique_counts up cx cy sx sy
  (Hx : content_text cx = inl sx) (Hy : content_text cy = inl sy) :
  let i := snd (compare_parts_list up cx cy) in
  (exists u, NoDup u /\ (forall x, In x u <-> 0 < lines_with up x sx) /\
             dxf_unique i = length u) /\
  (exists u, NoDup u /\ (forall x, In x u <-> 0 < lines_with up x sy) /\
             circuit_unique i = length u).
Proof.
  cbv zeta. rewrite (compare_ok up cx cy sx sy Hx Hy). simpl.
  split; apply Counter_distinct.
Qed.

Lemma compare_unique_counts_witness :
  let i := snd (compare_parts_list ascii_upper (PyStr (s "R1
r1
C2")) (PyStr (s "X"))) in
  (exists u, NoDup u /\ (forall x, In x u <-> 0 < lines_with ascii_upper x (s "R1
r1
C2")) /\ dxf_unique i = length u) /\
  (exists u, NoDup u /\ (forall x, In x u <-> 0 < lines_with ascii_upper x (s "X")) /\
             circuit_unique i = length u).
Proof. apply compare_unique_counts; reflexivity. Defined.

(** The summary counts of the report equal the numbers of listed labels, and
    [dxf_total] / [circuit_total] count the lines that are not blank. *)
Theorem compare_counts_match_report up cx cy sx sy
  (Hx : content_text cx = inl sx) (Hy : content_text cy = inl sy) :
  let r := compare_parts_list up cx cy in
  length (report_missing_in_dxf (fst r)) = missing_in_dxf (snd r) /\
  length (report_missing_in_circuit (fst r)) = missing_in_circuit (snd r) /\
  dxf_total (snd r) = length (filter (fun l => negb (is_blank l)) (stringio_lines sx)) /\
  circuit_total (snd r) = length (filter (fun l => negb (is_blank l)) (stringio_lines sy)).
Proof.
  cbv zeta. rewrite (compare_ok up cx cy sx sy Hx Hy). simpl.
  unfold sorted_str, labels_of. rewrite <- !(Permutation_length (sort_by_perm _ _)).
  rewrite !length_map. auto.
Qed.

Lemma compare_counts_match_report_witness :
  let r := compare_parts_list ascii_upper (PyStr (s "R1

C2
")) (PyStr (s "X")) in
  length (report_missing_in_dxf (fst r)) = missing_in_dxf (snd r) /\
  length (report_missing_in_circuit (fst r)) = missing_in_circuit (snd r) /\
  dxf_total (snd r) = length (filter (fun l => negb (is_blank l)) (stringio_lines (s "R1

C2
"))) /\
  circuit_total (snd r) = length (filter (fun l => negb (is_blank l)) (stringio_lines (s "X"))).
Proof. apply compare_counts_match_report; reflexivity. Defined.

(** Both lists of the report are in ascending string order. *)
Theorem compare_report_sorted up cx cy :
  let o := fst (compare_parts_list up cx cy) in
  Sorted (fun a b => str_leb a b = true) (report_missing_in_dxf o) /\
  Sorted (fun a b => str_leb a b = true) (report_missing_in_circuit o).
Proof.
  cbv zeta.
  destruct (content_text cx) as [sx|e] eqn:Hx.
  - destruct (content_text cy) as [sy|e] eqn:Hy.
    + rewrite (compare_ok up cx cy sx sy Hx Hy). simpl.
      split; apply sort_by_sorted, str_leb_total.
    + rewrite (compare_err_right up cx cy sx e Hx Hy). simpl. auto.
  - rewrite (compare_err_left up cx cy e Hx). simpl. auto.
Qed.

Lemma multiset_balance lx ly :
  length lx + length (counter_elements (counter_sub (Counter ly) (Counter lx))) =
  length ly + length (counter_elements (counter_sub (Counter lx) (Counter ly))).
Proof.
  rewrite <- !length_app. apply Permutation_length.
  apply (Permutation_count_occ pystr_eq_dec). intros x.
  fold (occ x (lx ++ counter_elements (counter_sub (Counter ly) (Counter lx)))).
  fold (occ x (ly ++ counter_elements (counter_sub (Counter lx) (Counter ly)))).
  rewrite !occ_app, !occ_sub_elements. lia.
Qed.

(** The labels of the first content plus those missing from it are, in
    number, the labels of the second plus those missing from it. *)
Theorem compare_count_balance up cx cy :
  let i := snd (compare_parts_list up cx cy) in
  dxf_total i + missing_in_dxf i = circuit_total i + missing_in_circuit i.
Proof.
  cbv zeta.
  destruct (content_text cx) as [sx|e] eqn:Hx.
  - destruct (content_text cy) as [sy|e] eqn:Hy.
    + rewrite (compare_ok up cx cy sx sy Hx Hy). simpl. apply multiset_balance.
    + rewrite (compare_err_right up cx cy sx e Hx Hy). reflexivity.
  - rewrite (compare_err_left up cx cy e Hx). reflexivity.
Qed.

(** When both contents are read, nothing is reported missing on either side
    exactly when the two label lists are equal up to order. *)
Theorem compare_no_difference_iff up cx cy sx sy
  (Hx : content_text cx = inl sx) (Hy : content_text cy = inl sy) :
  let i := snd (compare_parts_list up cx cy) in
  (missing_in_dxf i = 0 /\ missing_in_circuit i = 0) <->
  Permutation (labels_of up sx) (labels_of up sy).
Proof.
  cbv zeta. rewrite (compare_ok up cx cy sx sy Hx Hy). simpl.
  rewrite !length_zero_iff_nil.
  split.
  - intros [H1 H2]. apply (Permutation_count_occ pystr_eq_dec). intros x.
    pose proof (occ_sub_elements (labels_of up sy) (labels_of up sx) x) as E1.
    pose proof (occ_sub_elements (labels_of up sx) (labels_of up sy) x) as E2.
    rewrite H1 in E1. rewrite H2 in E2. unfold occ in *. simpl in E1, E2.
    lia.
  - intros P. split; apply occ_zero_nil; intros x; rewrite occ_sub_elements;
      rewrite (occ_perm x _ _ P); lia.
Qed.

Lemma compare_no_difference_iff_witness :
  let i := snd (compare_parts_list ascii_upper (PyStr (s "R1
c2")) (PyStr (s " C2
r1 "))) in
  (missing_in_dxf i = 0 /\ missing_in_circuit i = 0) <->
  Permutation (labels_of ascii_upper (s "R1
c2")) (labels_of ascii_upper (s " C2
r1 ")).
Proof. apply compare_no_difference_iff; reflexivity. Defined.

Lemma Counter_length_le l : length (Counter l) <= length l.
Proof.
  rewrite length_Counter_keys. apply NoDup_incl_length.
  - apply keys_Counter_NoDup.
  - intros x; apply keys_Counter_In.
Qed.

Lemma common_le_unique la lb :
  common_keys_count (Counter la) (Counter lb) <= length (Counter la).
Proof.
  unfold common_keys_count. rewrite length_Counter_keys.
  induction (counter_keys (Counter la)) as [|k r IH]; simpl; auto.
  destruct (str_mem k _); simpl; lia.
Qed.

(** [common_count <= dxf_unique <= dxf_total], and likewise for the circuit
    list. *)
Theorem compare_count_bounds up cx cy :
  let i := snd (compare_parts_list up cx cy) in
  common_count i <= dxf_unique i /\ dxf_unique i <= dxf_total i /\
  common_count i <= circuit_unique i /\ circuit_unique i <= circuit_total i.
Proof.
  cbv zeta.
  destruct (content_text cx) as [sx|e] eqn:Hx.
  - destruct (content_text cy) as [sy|e] eqn:Hy.
    + rewrite (compare_ok up cx cy sx sy Hx Hy). simpl.
      pose proof (common_le_unique (labels_of up sx) (labels_of up sy)).
      pose proof (common_le_unique (labels_of up sy) (labels_of up sx)).
      pose proof (Counter_length_le (labels_of up sx)).
      pose proof (Counter_length_le (labels_of up sy)).
      pose proof (common_keys_count_sym (labels_of up sx) (labels_of up sy)). lia.
    + rewrite (compare_err_right up cx cy sx e Hx Hy). simpl. lia.
  - rewrite (compare_err_left up cx cy e Hx). simpl. lia.
Qed.

(** ** More on [extract_labels] *)

Lemma strip_infix l : exists p r, l = p ++ strip l ++ r.
Proof.
  destruct (lstrip_suffix l) as [p Hp].
  destruct (lstrip_suffix (rev (lstrip l))) as [q Hq].
  assert (E : lstrip l = rev (lstrip (rev (lstrip l))) ++ rev q).
  { rewrite <- rev_app_distr, <- Hq, rev_involutive. reflexivity. }
  exists p, (rev q). unfold strip.
  rewrite Hp at 1. f_equal. exact E.
Qed.

Lemma contains_infix pat l p r : contains pat l = true -> contains pat (p ++ l ++ r) = true.
Proof.
  rewrite !contains_spec. intros [a [b ->]].
  exists (p ++ a), (b ++ r). rewrite <- !app_assoc. reflexivity.
Qed.

Lemma prefixb_cons c p d r : prefixb (c :: p) (d :: r) = (c =? d)%N && prefixb p r.
Proof. reflexivity. Qed.

Lemma contains_cons pat c r : contains pat (c :: r) = prefixb pat (c :: r) || contains pat r.
Proof. reflexivity. Qed.

(** [replace_par] on a non-empty string, with the literal patterns spelled as
    comparisons. *)
Lemma replace_par_cons c r :
  replace_par (c :: r) =
  if (c =? 92)%N then
    match r with
    | d :: r' => if (d =? 80)%N then 32%N :: replace_par r' else c :: replace_par r
    | [] => [c]
    end
  else c :: replace_par r.
Proof.
  destruct c as [|p]; [reflexivity|].
  repeat (destruct p as [p|p|]; try reflexivity).
  destruct r as [|d r]; [reflexivity|].
  destruct d as [|q]; [reflexivity|].
  repeat (destruct q as [q|q|]; try reflexivity).
Qed.

Lemma replace_par_head r r' : replace_par r = 80%N :: r' -> exists r'', r = 80%N :: r''.
Proof.
  destruct r as [|c r]; [discriminate|]. rewrite replace_par_cons.
  destruct (c =? 92)%N eqn:E.
  - apply N.eqb_eq in E; subst c. destruct r as [|d r]; [discriminate|].
    destruct (d =? 80)%N; discriminate.
  - intros H; injection H as -> _; eauto.
Qed.

Lemma replace_par_no_par t : contains [92; 80]%N (replace_par t) = false.
Proof.
  induction t as [t IH] using (induction_ltof1 _ (@length N)). unfold ltof in IH.
  destruct t as [|c r]; [reflexivity|].
  rewrite replace_par_cons.
  destruct (c =? 92)%N eqn:E92.
  - apply N.eqb_eq in E92; subst c. destruct r as [|d r]; [reflexivity|].
    destruct (d =? 80)%N eqn:E80.
    + rewrite contains_cons, (IH r) by (simpl; lia). reflexivity.
    + rewrite contains_cons, (IH (d :: r)) by (simpl; lia).
      rewrite orb_false_r, prefixb_cons, N.eqb_refl.
      destruct (replace_par (d :: r)) as [|e r'] eqn:Er; [reflexivity|].
      rewrite prefixb_cons. destruct (80 =? e)%N eqn:E; [|reflexivity].
      apply N.eqb_eq in E; subst e.
      destruct (replace_par_head _ _ Er) as [r'' H]. injection H as ->.
      rewrite N.eqb_refl in E80; discriminate.
  - rewrite contains_cons, (IH r) by (simpl; lia).
    rewrite orb_false_r, prefixb_cons, N.eqb_sym, E92. reflexivity.
Qed.

Lemma clean_text_no_par t : contains [92; 80]%N (clean_text t) = false.
Proof.
  unfold clean_text. destruct (contains [92; 80]%N (strip (replace_par (format_code_sub t)))) eqn:E;
    auto.
  destruct (strip_infix (replace_par (format_code_sub t))) as [p [r Hpr]].
  apply (contains_infix _ _ p r) in E. rewrite <- Hpr, replace_par_no_par in E.
  discriminate.
Qed.

(** Every extracted label is already stripped and contains no paragraph code
    ["\P"]. *)
Theorem extract_labels_clean isd isl isa msp fnp so :
  Forall (fun l => strip l = l /\ contains [92; 80]%N l = false)
    (fst (extract_labels isd isl isa msp fnp so)).
Proof.
  apply Forall_forall. intros l H. apply extract_labels_In in H.
  rewrite raw_labels_spec, filter_In, in_map_iff in H.
  destruct H as [[e [<- _]] _]. split.
  - unfold clean_text. apply strip_idem.
  - apply clean_text_no_par.
Qed.

(** Sorting with ['desc'] gives exactly the reverse of sorting with ['asc']. *)
Theorem extract_labels_desc_rev_asc isd isl isa msp fnp :
  fst (extract_labels isd isl isa msp fnp "desc") =
  rev (fst (extract_labels isd isl isa msp fnp "asc")).
Proof.
  rewrite !extract_labels_fst. unfold sort_labels. simpl.
  set (L := fst (filter_labels isd isl isa fnp (raw_labels msp))).
  set (R := fun a b => str_leb a b = true).
  assert (Sa : StronglySorted R (sort_by str_leb L)).
  { apply Sorted_StronglySorted; [intros x y z; apply str_leb_trans|].
    apply sort_by_sorted, str_leb_total. }
  assert (Sd : StronglySorted (fun a b => R b a) (sort_by (fun a b => str_leb b a) L)).
  { apply Sorted_StronglySorted.
    - intros x y z H1 H2. unfold R in *. eapply str_leb_trans; eauto.
    - apply sort_by_sorted. intros a b; apply str_leb_total. }
  rewrite <- (rev_involutive (sort_by (fun a b => str_leb b a) L)).
  f_equal. apply (strongly_sorted_unique R).
  - intros a b; apply str_leb_antisym.
  - apply strongly_sorted_rev; exact Sd.
  - exact Sa.
  - eapply perm_trans; [apply Permutation_sym, Permutation_rev|].
    eapply perm_trans; [apply Permutation_sym, sort_by_perm|apply sort_by_perm].
Qed.

Lemma filter_idem (f : entity -> bool) l : filter f (filter f l) = filter f l.
Proof.
  induction l as [|x r IH]; simpl; auto.
  destruct (f x) eqn:E; simpl; rewrite ?E, IH; auto.
Qed.

(** Only [MTEXT] entities matter: dropping every other entity changes
    neither the labels nor the counts. *)
Theorem extract_labels_mtext_only isd isl isa msp fnp so :
  extract_labels isd isl isa (filter is_mtext msp) fnp so =
  extract_labels isd isl isa msp fnp so.
Proof.
  unfold extract_labels. rewrite !raw_labels_spec, filter_idem. reflexivity.
Qed.

Lemma filter_perm_split (p : pystr -> bool) l :
  Permutation l (filter (fun x => negb (p x)) l ++ filter p l).
Proof.
  induction l as [|x r IH]; simpl; auto.
  destruct (p x); simpl.
  - apply Permutation_cons_app. exact IH.
  - constructor. exact IH.
Qed.

(** With filtering, the labels are the unfiltered ones less [filtered_count]
    labels that [is_non_part_number] classifies as non part numbers. *)
Theorem extract_labels_filter_partition isd isl isa msp so :
  exists excluded,
    Permutation (fst (extract_labels isd isl isa msp true so) ++ excluded)
                (fst (extract_labels isd isl isa msp false so)) /\
    Forall (fun l => is_non_part_number isd isl isa l = true) excluded /\
    length excluded = filtered_count (snd (extract_labels isd isl isa msp true so)).
Proof.
  rewrite !extract_labels_fst, extract_labels_snd, filter_labels_true. simpl.
  exists (filter (is_non_part_number isd isl isa) (raw_labels msp)). split; [|split].
  - eapply perm_trans; [|apply sort_labels_perm].
    eapply perm_trans; [|apply Permutation_sym, filter_perm_split].
    apply Permutation_app_tail, Permutation_sym, sort_labels_perm.
  - apply Forall_forall. intros l Hl. apply filter_In in Hl. tauto.
  - reflexivity.
Qed.

(** ** Removal of format codes *)

Lemma match_format_code_eq r :
  match_format_code r =
  let (run, rest) := span format_class r in
  if nonempty run then
    match rest with c :: rest' => if (c =? 59)%N then Some rest' else None | [] => None end
  else None.
Proof.
  unfold match_format_code. destruct (span format_class r) as [run rest].
  destruct run as [|x run]; [reflexivity|].
  destruct rest as [|c rest']; [reflexivity|].
  destruct c as [|p]; [reflexivity|].
  repeat (destruct p as [p|p|]; try reflexivity).
Qed.

Lemma match_format_code_shorter r rest :
  match_format_code r = Some rest -> length rest < length r.
Proof.
  rewrite match_format_code_eq.
  destruct (span format_class r) as [run rest0] eqn:E.
  apply span_spec in E as [-> _].
  destruct run as [|x run]; [discriminate|]. simpl nonempty; cbv iota.
  destruct rest0 as [|c rest']; [discriminate|].
  destruct (c =? 59)%N; [|discriminate].
  intros H; injection H as <-. rewrite length_app; simpl; lia.
Qed.

Lemma match_format_code_run run q :
  run <> [] -> Forall (fun c => format_class c = true) run ->
  match_format_code (run ++ 59%N :: q) = Some q.
Proof.
  intros Hne Hrun. rewrite match_format_code_eq, span_app; auto.
  - destruct run; [contradiction|reflexivity].
  - intros c r H; injection H as <- _; reflexivity.
Qed.

Lemma sub_format_codes_cons f c r :
  sub_format_codes (S f) (c :: r) =
  if (c =? 92)%N then
    match match_format_code r with
    | Some rest => sub_format_codes f rest
    | None => c :: sub_format_codes f r
    end
  else c :: sub_format_codes f r.
Proof. reflexivity. Qed.

(** Any fuel of at least [length t] gives the same result. *)
Lemma sub_format_codes_fuel f1 f2 t :
  length t <= f1 -> length t <= f2 -> sub_format_codes f1 t = sub_format_codes f2 t.
Proof.
  revert f2 t; induction f1 as [|f IH]; intros f2 t H1 H2.
  - destruct t; [|simpl in H1; lia]. destruct f2; reflexivity.
  - destruct t as [|c r]; [destruct f2; reflexivity|].
    destruct f2 as [|g]; [simpl in H2; lia|].
    simpl in H1, H2. rewrite !sub_format_codes_cons.
    destruct (c =? 92)%N.
    + destruct (match_format_code r) as [rest|] eqn:Em.
      * apply match_format_code_shorter in Em. apply IH; lia.
      * f_equal. apply IH; lia.
    + f_equal; apply IH; lia.
Qed.

Lemma sub_format_codes_prefix p t f :
  ~ In 92%N p -> length (p ++ t) <= f ->
  sub_format_codes f (p ++ t) = p ++ sub_format_codes (f - length p) t.
Proof.
  revert f; induction p as [|c p IH]; intros f Hp Hf.
  - simpl. rewrite Nat.sub_0_r. reflexivity.
  - destruct f as [|g]; [simpl in Hf; lia|].
    simpl app. rewrite sub_format_codes_cons.
    assert (Hc : (c =? 92)%N = false).
    { apply N.eqb_neq. intros ->. apply Hp; left; reflexivity. }
    rewrite Hc, IH; [reflexivity| |simpl in Hf; lia].
    intros H; apply Hp; right; exact H.
Qed.

(** Text without a backslash is left alone, and a format code [\<run>;]
    after such text is deleted while the rest is cleaned on its own. *)
Theorem format_code_sub_app p run q :
  ~ In 92%N p -> run <> [] -> Forall (fun c => format_class c = true) run ->
  format_code_sub p = p /\
  format_code_sub (p ++ 92%N :: run ++ 59%N :: q) = p ++ format_code_sub q.
Proof.
  intros Hp Hne Hrun. unfold format_code_sub. split.
  - pose proof (sub_format_codes_prefix p [] (length p) Hp) as H.
    rewrite app_nil_r in H. rewrite H by lia.
    rewrite Nat.sub_diag. apply app_nil_r.
  - rewrite sub_format_codes_prefix by (auto; lia).
    rewrite !length_app. simpl length.
    replace (length p + S (length (run ++ 59%N :: q)) - length p)
      with (S (length (run ++ 59%N :: q))) by lia.
    rewrite sub_format_codes_cons, N.eqb_refl, match_format_code_run by auto.
    f_equal. apply sub_format_codes_fuel; [rewrite length_app; simpl|]; lia.
Qed.

(** ** [normalize_label] on the labels read *)

Section Normalized.
Variable up : N -> list N.
Hypothesis up_idem : forall c, upper up (up c) = up c.
Hypothesis up_nonempty : forall c, up c <> [].
Hypothesis up_nonspace : forall c d, py_isspace c = false -> In d (up c) -> py_isspace d = false.

Lemma upper_app a b : upper up (a ++ b) = upper up a ++ upper up b.
Proof. unfold upper. apply flat_map_app. Qed.

Lemma upper_upper y : upper up (upper up y) = upper up y.
Proof.
  induction y as [|c y IH]; [reflexivity|].
  change (upper up (c :: y)) with (up c ++ upper up y).
  rewrite upper_app, up_idem, IH. reflexivity.
Qed.

Lemma upper_no_lead y : no_lead y -> no_lead (upper up y).
Proof.
  destruct y as [|c y]; [auto|]. simpl. intros Hc.
  change (upper up (c :: y)) with (up c ++ upper up y).
  destruct (up c) as [|d ds] eqn:E; [contradiction (up_nonempty c E)|].
  simpl. apply (up_nonspace c d Hc). rewrite E; left; reflexivity.
Qed.

Lemma upper_no_trail y : no_lead (rev y) -> no_lead (rev (upper up y)).
Proof.
  destruct y as [|c y] using rev_ind; [auto|]. clear IHy.
  rewrite upper_app, !rev_app_distr. intros Hc.
  change (no_lead (c :: rev y)) in Hc. simpl in Hc.
  change (upper up [c]) with (up c ++ []). rewrite app_nil_r.
  destruct (rev (up c)) as [|d ds] eqn:E.
  - exfalso. apply (up_nonempty c). rewrite <- (rev_involutive (up c)), E. reflexivity.
  - simpl. apply (up_nonspace c d Hc). apply in_rev. rewrite E; left; reflexivity.
Qed.

Lemma strip_id l : no_lead l -> no_lead (rev l) -> strip l = l.
Proof.
  intros H1 H2. unfold strip. rewrite (lstrip_id l H1), (lstrip_id _ H2).
  apply rev_involutive.
Qed.

Lemma strip_no_trail l : no_lead (rev (strip l)).
Proof. unfold strip. rewrite rev_involutive. apply lstrip_no_lead. Qed.

(** When [str.upper] is idempotent, never empty and never produces
    whitespace from a non-space character, every label read is non-empty
    and a fixed point of [normalize_label]. *)
Theorem read_labels_normalized c text :
  content_text c = inl text ->
  exists labels, read_labels_from_content up c = inl labels /\
    Forall (fun l => l <> [] /\ normalize_label up l = l) labels.
Proof.
  intros Hc. exists (labels_of up text). split; [apply read_labels_ok; exact Hc|].
  unfold labels_of. apply Forall_map, Forall_forall. intros l Hl.
  apply filter_In in Hl as [_ Hb]. unfold is_blank in Hb. split.
  - destruct (strip l) as [|x r] eqn:E; [discriminate|].
    change (upper up (x :: r)) with (up x ++ upper up r).
    destruct (up x) eqn:Ex; [contradiction (up_nonempty x Ex)|discriminate].
  - unfold normalize_label.
    rewrite strip_id by (apply upper_no_lead, strip_no_lead || apply upper_no_trail, strip_no_trail).
    apply upper_upper.
Qed.

End Normalized.

Lemma format_code_sub_app_witness :
  format_code_sub (s "AB") = s "AB" /\
  format_code_sub (s "AB" ++ 92%N :: s "H2.5" ++ 59%N :: s "C\A1;D") =
  s "AB" ++ format_code_sub (s "C\A1;D").
Proof.
  apply format_code_sub_app.
  - simpl. intuition discriminate.
  - discriminate.
  - repeat constructor.
Defined.

Lemma ascii_upper_cases c :
  ((97 <= c <= 122)%N /\ ascii_upper c = [(c - 32)%N]) \/
  (~ (97 <= c <= 122)%N /\ ascii_upper c = [c]).
Proof.
  unfold ascii_upper.
  destruct (N.leb_spec 97 c), (N.leb_spec c 122); simpl;
    [left|right|right|right]; split; auto; lia.
Qed.

Lemma py_isspace_upper_range d : (65 <= d <= 90)%N -> py_isspace d = false.
Proof.
  intros H. unfold py_isspace.
  rewrite (proj2 (N.leb_gt d 13)), (proj2 (N.leb_gt d 32)), (proj2 (N.leb_gt 8192 d))
    by lia.
  rewrite (proj2 (N.eqb_neq d 133)), (proj2 (N.eqb_neq d 160)), (proj2 (N.eqb_neq d 5760)),
    (proj2 (N.eqb_neq d 8232)), (proj2 (N.eqb_neq d 8233)), (proj2 (N.eqb_neq d 8239)),
    (proj2 (N.eqb_neq d 8287)), (proj2 (N.eqb_neq d 12288)) by lia.
  destruct (9 <=? d)%N, (28 <=? d)%N; reflexivity.
Qed.

Lemma ascii_upper_idem c : upper ascii_upper (ascii_upper c) = ascii_upper c.
Proof.
  destruct (ascii_upper_cases c) as [[H E]|[H E]]; rewrite E; unfold upper; simpl;
    rewrite app_nil_r.
  - destruct (ascii_upper_cases (c - 32)) as [[H' _]|[_ E']]; [lia|exact E'].
  - exact E.
Qed.

Lemma ascii_upper_nonspace c d :
  py_isspace c = false -> In d (ascii_upper c) -> py_isspace d = false.
Proof.
  intros Hc Hd. destruct (ascii_upper_cases c) as [[H E]|[H E]]; rewrite E in Hd;
    destruct Hd as [<-|[]].
  - apply py_isspace_upper_range; lia.
  - exact Hc.
Qed.

Lemma read_labels_normalized_witness :
  exists labels,
    read_labels_from_content ascii_upper (PyStr (s " r1 
C2")) = inl labels /\
    Forall (fun l => l <> [] /\ normalize_label ascii_upper l = l) labels.
Proof.
  apply (read_labels_normalized ascii_upper ascii_upper_idem ascii_upper_nonempty
           ascii_upper_nonspace (PyStr (s " r1 
C2")) (s " r1 
C2")).
  reflexivity.
Defined.

(** The sort order only permutes the labels: the labels obtained with two
    sort orders are permutations of each other and the [info] is the same. *)
Theorem extract_labels_sort_order_invariant isd isl isa msp fnp so1 so2 :
  Permutation (fst (extract_labels isd isl isa msp fnp so1))
              (fst (extract_labels isd isl isa msp fnp so2)) /\
  snd (extract_labels isd isl isa msp fnp so1) = snd (extract_labels isd isl isa msp fnp so2).
Proof.
  rewrite !extract_labels_fst, !extract_labels_snd. split.
  - eapply perm_trans; [apply Permutation_sym, sort_labels_perm|apply sort_labels_perm].
  - simpl. f_equal.
    rewrite <- !(Permutation_length (sort_labels_perm _ _)). reflexivity.
Qed.

(** ** Lines of [io.StringIO] *)

Lemma In_removelast (x : N) l : In x (removelast l) -> In x l.
Proof.
  intros H. destruct l as [|a l] using rev_ind; [exact H|].
  rewrite removelast_last in H. apply in_or_app; left; exact H.
Qed.

Lemma lines_acc_spec cur t :
  ~ In 10%N cur ->
  concat (lines_acc cur t) = rev cur ++ t /\
  Forall (fun l => l <> [] /\ ~ In 10%N (removelast l)) (lines_acc cur t).
Proof.
  revert cur; induction t as [|c r IH]; intros cur Hcur; simpl.
  - destruct cur as [|x cur']; [split; auto|].
    simpl. split; [rewrite app_nil_r; reflexivity|].
    constructor; [|constructor]. split.
    + intros H. apply (f_equal (@length N)) in H. rewrite length_app in H. simpl in H. lia.
    + intros H. apply In_removelast in H. apply Hcur, in_rev. exact H.
  - destruct (c =? 10)%N eqn:E.
    + destruct (IH [] (fun H => H)) as [Hc Hf]. simpl. split.
      * rewrite Hc, <- app_assoc. reflexivity.
      * constructor; [|exact Hf]. split.
        -- intros H. apply (f_equal (@length N)) in H. rewrite length_app in H. simpl in H. lia.
        -- rewrite removelast_last. intros H. apply Hcur, in_rev. exact H.
    + destruct (IH (c :: cur)) as [Hc Hf].
      * intros [H|H]; [subst c; rewrite N.eqb_refl in E; discriminate|contradiction].
      * split; [rewrite Hc; simpl; rewrite <- app_assoc; reflexivity|exact Hf].
Qed.

(** Iterating over [io.StringIO(text)] yields non-empty lines, each with a
    ["\n"] at most at its end, whose concatenation is [text]. *)
Theorem stringio_lines_concat t :
  concat (stringio_lines t) = t /\
  Forall (fun l => l <> [] /\ ~ In 10%N (removelast l)) (stringio_lines t).
Proof. apply (lines_acc_spec [] t). intros []. Qed.
